(** * WinDeployDllHelper: the dependency worklist of [index.js]

    A shallow embedding of [src/index.js]: the adapter [scan], the
    worklist [queue] (a JavaScript [Map]) and the resolution loop
    [while (queue.size) { for (const pair of queue) { ... } }],
    followed by the properties of the specification that concern them.

    The JavaScript [Map] is modelled the way ECMAScript defines it: a list
    of entry slots in insertion order, where [delete] empties a slot in
    place, [set] on a new key appends a slot, and an iterator is an index
    into that list which reads the list anew on every step.  The engine
    iterates [queue] while it deletes from it and adds to it, so this is
    the part of the model on which most properties depend. *)

From Stdlib Require Import List String Ascii Bool Arith ZArith Lia.
From Stdlib Require Import DecimalString.
Import ListNotations.

Local Open Scope string_scope.
Local Open Scope list_scope.

(** ** JavaScript values used by the script *)

(** [dep.Filepath]: a string, or [null] when Dependencies did not resolve
    the module. *)
Definition FilePath := option string.

(** JavaScript truthiness of a string-or-null value, as tested by
    [if (filePath)], [if (file)] and [if (foundFileName)]: [null],
    [undefined] and the empty string are falsy. *)
Definition truthy (v : option string) : bool :=
  match v with
  | Some s => negb (String.eqb s "")
  | None => false
  end.

(** ** The JavaScript [Map] *)

Module JsMap.

(** [[MapData]]: one slot per [set] of a fresh key, in insertion order; a
    deleted entry leaves an empty slot behind. *)
Definition t := list (option (string * FilePath)).

(** [new Map()] *)
Definition empty : t := [].

Definition slot_has_key (k : string) (e : option (string * FilePath)) : bool :=
  match e with
  | Some (k', _) => String.eqb k' k
  | None => false
  end.

(** [m.has(k)] *)
Definition has (k : string) (m : t) : bool := existsb (slot_has_key k) m.

(** [m.get(k)] ([None] stands for [undefined], the key being absent) *)
Fixpoint get (k : string) (m : t) : option FilePath :=
  match m with
  | [] => None
  | Some (k', v) :: m' => if String.eqb k' k then Some v else get k m'
  | None :: m' => get k m'
  end.

(** [m.set(k, v)]: the value of an existing entry is replaced in place,
    a new key is appended. *)
Fixpoint set (k : string) (v : FilePath) (m : t) : t :=
  match m with
  | [] => [Some (k, v)]
  | Some (k', v') :: m' =>
      if String.eqb k' k then Some (k', v) :: m' else Some (k', v') :: set k v m'
  | None :: m' => None :: set k v m'
  end.

(** [m.delete(k)]: the first slot holding [k] is emptied, the slots keep
    their positions. *)
Fixpoint delete (k : string) (m : t) : t :=
  match m with
  | [] => []
  | Some (k', v') :: m' =>
      if String.eqb k' k then None :: m' else Some (k', v') :: delete k m'
  | None :: m' => None :: delete k m'
  end.

(** The entries still present, in insertion order: what an iteration over
    a map that is not modified meanwhile yields. *)
Fixpoint entries (m : t) : list (string * FilePath) :=
  match m with
  | [] => []
  | Some e :: m' => e :: entries m'
  | None :: m' => entries m'
  end.

(** [m.size] *)
Definition size (m : t) : nat := List.length (entries m).

Definition keys (m : t) : list string := map fst (entries m).

(** One step of a map iterator standing at slot [idx]: empty slots are
    skipped; the result is the entry found and the index after it, or
    [None] when the iterator is exhausted.  [find_from m idx] expects [m]
    to be the slots from [idx] on. *)
Fixpoint find_from (m : t) (idx : nat) : option (nat * (string * FilePath)) :=
  match m with
  | [] => None
  | Some e :: _ => Some (S idx, e)
  | None :: m' => find_from m' (S idx)
  end.

Definition next (m : t) (idx : nat) : option (nat * (string * FilePath)) :=
  find_from (skipn idx m) idx.

(** Number of slots emptied by [delete]. *)
Definition removed (m : t) : nat := List.length m - size m.

End JsMap.

(** ** Configuration and external collaborators *)

(** One element of [json.Root.Dependencies]. *)
Record Dep := mkDep { ModuleName : string; Filepath : FilePath }.

(** [INCLUDE_PATTERN.test(moduleName)] for [INCLUDE_PATTERN = /^vtk/]. *)
Definition INCLUDE_PATTERN_test (moduleName : string) : bool :=
  String.prefix "vtk" moduleName.

(** What the script does to the outside world, in the order it does it. *)
Inductive event :=
| Exec (targetPath : string)         (* childProcess.execSync of Dependencies on targetPath *)
| Readdir (dir : string)             (* fs.readdirSync(dir) *)
| CopyFile (src dest : string)       (* fs.copyFileSync(src, dest) *)
| ConsoleLog (line : string).        (* console.log(line) *)

(** Errors that end the script. *)
Inductive error :=
| JsError (message : string)         (* throw new Error(message) *)
| ExecError (targetPath : string)    (* execSync or JSON.parse threw *)
| FsError (path : string).           (* readdirSync or copyFileSync threw *)

(** The constants at the top of the script and the Node.js functions it
    calls.  [FS] is the state of the file system; the answers of
    Dependencies and of [readdirSync] may depend on it, and
    [copyFileSync] changes it.  [None] is a thrown exception. *)
Record Env := mkEnv {
  FS : Type;
  EXE_PATH : string;
  SEARCH_DIRS : list string;
  path_dirname : string -> string;
  path_join : string -> string -> string;
  (** [JSON.parse(execSync(Dependencies -json -depth 1 -chain targetPath)).Root.Dependencies] *)
  dependencies : FS -> string -> option (list Dep);
  readdirSync : FS -> string -> option (list string);
  copyFileSync : FS -> string -> string -> option FS;
  fs_init : FS;
  (** the two readings of [new Date().getTime()] *)
  startTime : Z;
  endTime : Z;
  (** [Math.round((endTime - startTime) / 1000)] for two readings, start
      first: the subtraction, the division and the rounding are done by the
      JavaScript runtime on double-precision numbers; the integer that
      results is taken from the runtime and not computed here *)
  Math_round_seconds : Z -> Z -> Z
}.

Definition EXE_DIR_PATH (E : Env) : string := path_dirname E (EXE_PATH E).

(** ** The adapter: [scan] *)

(** The body of [for (const dep of json.Root.Dependencies)]. *)
Definition scan_dep (result : JsMap.t) (dep : Dep) : JsMap.t :=
  let moduleName := ModuleName dep in
  let filePath := Filepath dep in
  if INCLUDE_PATTERN_test moduleName then JsMap.set moduleName filePath result
  else result.

Definition scan_deps (deps : list Dep) : JsMap.t :=
  fold_left scan_dep deps JsMap.empty.

(** [scan(targetPath)] on the file system [fs]. *)
Definition scan (E : Env) (fs : FS E) (targetPath : string) : option JsMap.t :=
  match dependencies E fs targetPath with
  | None => None
  | Some deps => Some (scan_deps deps)
  end.

(** ** The resolution engine *)

(** The variables of the script that change while it runs, together with
    the file system and the record of what was done to the outside world.
    [iter] is the iterator of the [for (const pair of queue)] statement
    being executed ([None] when control is at the [while] test); [passes]
    counts how many times that statement has been entered. *)
Record state (E : Env) := mkState {
  queue : JsMap.t;
  iter : option nat;
  fs : FS E;
  trace : list event;
  passes : nat
}.

Arguments mkState {E}.
Arguments queue {E}.
Arguments iter {E}.
Arguments fs {E}.
Arguments trace {E}.
Arguments passes {E}.

Inductive outcome (E : Env) :=
| Running (st : state E)             (* the script has not ended yet *)
| Finished (st : state E)            (* the last statement has been executed *)
| Threw (e : error) (st : state E).  (* an exception reached the top level *)

Arguments Running {E}.
Arguments Finished {E}.
Arguments Threw {E}.

Definition state_of {E : Env} (o : outcome E) : state E :=
  match o with
  | Running st | Finished st | Threw _ st => st
  end.

(** [if (filePath)]: the path to scan when the oracle resolved the module. *)
Definition resolved (filePath : FilePath) : option string :=
  if truthy filePath then filePath else None.

(** [for (const searchDir of SEARCH_DIRS)] with its [break]: the
    directories read, and either the pair [(foundFileName, foundDir)], or
    nothing found, or the directory whose listing threw. *)
Inductive search_result :=
| Match (foundFileName foundDir : string)
| NoMatch
| ReaddirThrew (searchDir : string).

Fixpoint search (E : Env) (fs : FS E) (dirs : list string) (moduleName : string)
  : list event * search_result :=
  match dirs with
  | [] => ([], NoMatch)
  | searchDir :: dirs' =>
      match readdirSync E fs searchDir with
      | None => ([Readdir searchDir], ReaddirThrew searchDir)
      | Some files =>
          let file := find (fun f => String.eqb f moduleName) files in
          match resolved file with
          | Some foundFileName => ([Readdir searchDir], Match foundFileName searchDir)
          | None =>
              let (evs, r) := search E fs dirs' moduleName in
              (Readdir searchDir :: evs, r)
          end
      end
  end.

(** The body of [for (const childPair of children)]. *)
Definition enqueue_child (queue : JsMap.t) (childPair : string * FilePath) : JsMap.t :=
  let (childModuleName, childFilePath) := childPair in
  if JsMap.has childModuleName queue then queue
  else JsMap.set childModuleName childFilePath queue.

Definition enqueue_children (queue children : JsMap.t) : JsMap.t :=
  fold_left enqueue_child (JsMap.entries children) queue.

(** Lines 119-128: scan the file and add its children to the queue. *)
Definition expand {E : Env} (st : state E) (populateFilePath : string) : outcome E :=
  let tr := trace st ++ [Exec populateFilePath] in
  match scan E (fs st) populateFilePath with
  | None =>
      Threw (ExecError populateFilePath)
            (mkState (queue st) (iter st) (fs st) tr (passes st))
  | Some children =>
      Running (mkState (enqueue_children (queue st) children)
                       (iter st) (fs st) tr (passes st))
  end.

(** Lines 85-128: the body of [for (const pair of queue)]. *)
Definition process {E : Env} (st : state E) (pair_ : string * FilePath) : outcome E :=
  let (moduleName, filePath) := pair_ in
  match resolved filePath with
  | Some populateFilePath =>
      expand (mkState (JsMap.delete moduleName (queue st))
                      (iter st) (fs st) (trace st) (passes st))
             populateFilePath
  | None =>
      let (reads, found) := search E (fs st) (SEARCH_DIRS E) moduleName in
      let tr := trace st ++ reads in
      match found with
      | Match foundFileName foundDir =>
          (* [if (foundFileName)]: set by the search, to a truthy name *)
          let src := path_join E foundDir foundFileName in
          let dest := path_join E (EXE_DIR_PATH E) moduleName in
          let tr' := tr ++ [ConsoleLog ("Copying " ++ foundFileName ++ "...");
                            CopyFile src dest] in
          match copyFileSync E (fs st) src dest with
          | None => Threw (FsError src) (mkState (queue st) (iter st) (fs st) tr' (passes st))
          | Some fs' =>
              expand (mkState (JsMap.delete moduleName (queue st))
                              (iter st) fs' tr' (passes st))
                     dest
          end
      | NoMatch =>
          (* [foundFileName] is still [undefined] *)
          Threw (JsError ("Can not find " ++ moduleName))
                (mkState (queue st) (iter st) (fs st) tr (passes st))
      | ReaddirThrew searchDir =>
          Threw (FsError searchDir) (mkState (queue st) (iter st) (fs st) tr (passes st))
      end
  end.

(** [Math.round((endTime - startTime) / 1000)], as the runtime computes it
    from the two readings. *)
Definition cost_seconds (E : Env) : Z :=
  Math_round_seconds E (startTime E) (endTime E).

Definition cost_line (E : Env) : string :=
  "Cost time " ++ NilZero.string_of_int (Z.to_int (cost_seconds E)) ++ " sec".

(** Line 79: [let queue = scan(EXE_PATH)]. *)
Definition start (E : Env) : outcome E :=
  let tr := [Exec (EXE_PATH E)] in
  match scan E (fs_init E) (EXE_PATH E) with
  | None => Threw (ExecError (EXE_PATH E)) (mkState JsMap.empty None (fs_init E) tr 0)
  | Some q => Running (mkState q None (fs_init E) tr 0)
  end.

(** One step of lines 83-134:
    - at the [while] test, either leave the loop and print the elapsed
      time, or enter the [for...of] statement with a new iterator;
    - inside [for...of], ask the iterator for the next entry of the queue as
      it is now, and either run the body on it or leave the statement. *)
Definition step {E : Env} (st : state E) : outcome E :=
  match iter st with
  | None =>
      if Nat.eqb (JsMap.size (queue st)) 0
      then Finished (mkState (queue st) None (fs st)
                             (trace st ++ [ConsoleLog (cost_line E)]) (passes st))
      else Running (mkState (queue st) (Some 0) (fs st) (trace st) (S (passes st)))
  | Some idx =>
      match JsMap.next (queue st) idx with
      | None => Running (mkState (queue st) None (fs st) (trace st) (passes st))
      | Some (idx', pair_) =>
          process (mkState (queue st) (Some idx') (fs st) (trace st) (passes st)) pair_
      end
  end.

Fixpoint run_from {E : Env} (fuel : nat) (st : state E) : outcome E :=
  match fuel with
  | O => Running st
  | S fuel' =>
      match step st with
      | Running st' => run_from fuel' st'
      | o => o
      end
  end.

(** The whole script, cut off after [fuel] steps of the loop. *)
Definition run (E : Env) (fuel : nat) : outcome E :=
  match start E with
  | Running st => run_from fuel st
  | o => o
  end.

(** ** Sample environments *)

(** An environment whose Dependencies answers and directory listings are
    given by tables and do not change; its file system state is the list of
    the copies made so far.  Its clock readings are 1000 and 3499, for
    which the runtime computes [Math.round(2.499)], that is 2. *)
Fixpoint lookup {A : Type} (k : string) (table : list (string * A)) : option A :=
  match table with
  | [] => None
  | (k', a) :: table' => if String.eqb k' k then Some a else lookup k table'
  end.

Definition table_env (exe : string) (dirs : list string)
    (deps : list (string * list Dep)) (listings : list (string * list string)) : Env :=
  mkEnv (list (string * string)) exe dirs
        (fun _ => ".")
        (fun dir file =>
           if String.eqb dir "." then file else (dir ++ "/" ++ file)%string)
        (fun _ targetPath => lookup targetPath deps)
        (fun _ dir => lookup dir listings)
        (fun copies src dest => Some (copies ++ [(src, dest)]))
        []
        1000%Z 3499%Z
        (fun _ _ => 2%Z).

Definition present (name : string) : Dep := mkDep name (Some ("C:/vtk/" ++ name)%string).
Definition absent (name : string) : Dep := mkDep name None.

(** The executable needs vtkA; vtkA needs vtkD and vtkC, reported in this
    order, and vtkC needs vtkD as well.  Everything is already resolved. *)
Definition shared_env : Env :=
  table_env "./QtVtk1.exe" ["D:/sdk/bin"]
    [("./QtVtk1.exe", [present "vtkA.dll"; present "Qt5Core.dll"]);
     ("C:/vtk/vtkA.dll", [present "vtkD.dll"; present "vtkC.dll"]);
     ("C:/vtk/vtkC.dll", [present "vtkD.dll"]);
     ("C:/vtk/vtkD.dll", [])]
    [("D:/sdk/bin", [])].

(** The executable needs vtkA and vtkC, and both need vtkD. *)
Definition diamond_env : Env :=
  table_env "./QtVtk1.exe" ["D:/sdk/bin"]
    [("./QtVtk1.exe", [present "vtkA.dll"; present "vtkC.dll"]);
     ("C:/vtk/vtkA.dll", [present "vtkD.dll"]);
     ("C:/vtk/vtkC.dll", [present "vtkD.dll"]);
     ("C:/vtk/vtkD.dll", [])]
    [("D:/sdk/bin", [])].

(** vtkA and vtkB import from each other. *)
Definition cyclic_env : Env :=
  table_env "./QtVtk1.exe" ["D:/sdk/bin"]
    [("./QtVtk1.exe", [present "vtkA.dll"]);
     ("C:/vtk/vtkA.dll", [present "vtkB.dll"]);
     ("C:/vtk/vtkB.dll", [present "vtkA.dll"])]
    [("D:/sdk/bin", [])].

(** The executable needs vtkA, which needs vtkB. *)
Definition chain_env : Env :=
  table_env "./QtVtk1.exe" ["D:/sdk/bin"]
    [("./QtVtk1.exe", [present "vtkA.dll"]);
     ("C:/vtk/vtkA.dll", [present "vtkB.dll"]);
     ("C:/vtk/vtkB.dll", [])]
    [("D:/sdk/bin", [])].

(** vtkA is resolved, vtkB is missing and lies in the second and in the
    third search directory. *)
Definition deploy_env : Env :=
  table_env "./QtVtk1.exe" ["D:/sdk/one"; "D:/sdk/two"; "D:/sdk/three"]
    [("./QtVtk1.exe", [present "vtkA.dll"; absent "vtkB.dll"; present "Qt5Core.dll"]);
     ("C:/vtk/vtkA.dll", []);
     ("vtkB.dll", [])]
    [("D:/sdk/one", ["vtkA.dll"; "vtkb.dll"]);
     ("D:/sdk/two", ["vtkB.dll"]);
     ("D:/sdk/three", ["vtkB.dll"])].

(** vtkB is missing, vtkC is missing; only vtkB can be found. *)
Definition missing_env : Env :=
  table_env "./QtVtk1.exe" ["D:/sdk/one"; "D:/sdk/two"]
    [("./QtVtk1.exe", [absent "vtkB.dll"; absent "vtkC.dll"; present "vtkA.dll"]);
     ("C:/vtk/vtkA.dll", []);
     ("vtkB.dll", [])]
    [("D:/sdk/one", ["vtkB.dll"]);
     ("D:/sdk/two", ["vtkA.dll"])].

(** Dependencies reports vtkA twice, resolved at first and unresolved the
    second time. *)
Definition twice_env : Env :=
  table_env "./QtVtk1.exe" ["D:/sdk/bin"]
    [("./QtVtk1.exe", [present "vtkA.dll"; present "vtkC.dll"; absent "vtkA.dll"])]
    [("D:/sdk/bin", ["vtkA.dll"])].

(** Dependencies reports vtkB with a path that is not [null] but empty; the
    search directory holds vtkB. *)
Definition empty_path_env : Env :=
  table_env "./QtVtk1.exe" ["D:/sdk/bin"]
    [("./QtVtk1.exe", [mkDep "vtkB.dll" (Some "")]);
     ("vtkB.dll", [])]
    [("D:/sdk/bin", ["vtkB.dll"])].

(** An executable without vtk dependencies. *)
Definition plain_env : Env :=
  table_env "./QtVtk1.exe" ["D:/sdk/bin"]
    [("./QtVtk1.exe", [present "Qt5Core.dll"; present "KERNEL32.dll"])]
    [("D:/sdk/bin", ["vtkA.dll"])].

(** ** Observations on runs *)

Definition is_exec (ev : event) : bool :=
  match ev with Exec _ => true | _ => false end.

Definition is_copy (ev : event) : bool :=
  match ev with CopyFile _ _ => true | _ => false end.

Definition is_readdir (ev : event) : bool :=
  match ev with Readdir _ => true | _ => false end.

(** Number of invocations of Dependencies. *)
Definition exec_count (tr : list event) : nat := List.length (filter is_exec tr).

(** What a step added to the trace of [st]. *)
Definition new_events {E : Env} (st : state E) (o : outcome E) : list event :=
  skipn (List.length (trace st)) (trace (state_of o)).

(** Number of entries of [m] under the key [name]. *)
Definition count_key (name : string) (m : JsMap.t) : nat :=
  List.length (filter (fun e => String.eqb (fst e) name) (JsMap.entries m)).

(** The path of the last element of [deps] that reports [name]. *)
Definition last_reported (name : string) (deps : list Dep) : option FilePath :=
  option_map Filepath (find (fun d => String.eqb (ModuleName d) name) (rev deps)).

(** The file that the loop body scans for the entry [pair_]
    ([populateFilePath]): the resolved path, or else the destination of the
    copy. *)
Definition populate_path (E : Env) (pair_ : string * FilePath) : string :=
  match resolved (snd pair_) with
  | Some populateFilePath => populateFilePath
  | None => path_join E (EXE_DIR_PATH E) (fst pair_)
  end.

(** The filtered direct dependencies of a file, as [scan] reports them. *)
Definition children_of (E : Env) (fs : FS E) (targetPath : string)
  : list (string * FilePath) :=
  match scan E fs targetPath with
  | Some children => JsMap.entries children
  | None => []
  end.

(** The filtered transitive dependencies of the executable: what [scan]
    reports for the executable, and for the file of every dependency. *)
Inductive in_closure (E : Env) : string * FilePath -> Prop :=
| closure_seed : forall e,
    In e (children_of E (fs_init E) (EXE_PATH E)) -> in_closure E e
| closure_child : forall fs e c,
    in_closure E e ->
    In c (children_of E fs (populate_path E e)) ->
    in_closure E c.

(** [names] lists the module names of the closure, each once. *)
Definition closure_names (E : Env) (names : list string) : Prop :=
  NoDup names /\ forall m, In m names <-> exists fp, in_closure E (m, fp).

Definition finite_closure (E : Env) : Prop :=
  exists names, forall e, in_closure E e -> In (fst e) names.

(** The directory [dir] can be listed and holds no file named [m]. *)
Definition lists_without (E : Env) (fs : FS E) (m : string) (dir : string) : Prop :=
  exists files, readdirSync E fs dir = Some files /\ ~ In m files.

(** An event that the filter allows: a copy or a report concerns a module
    name that satisfies the inclusion pattern. *)
Definition event_filtered (E : Env) (ev : event) : Prop :=
  match ev with
  | Exec _ | Readdir _ => True
  | CopyFile src dest =>
      exists dir m, INCLUDE_PATTERN_test m = true /\
                    src = path_join E dir m /\ dest = path_join E (EXE_DIR_PATH E) m
  | ConsoleLog line =>
      line = cost_line E \/
      exists m, INCLUDE_PATTERN_test m = true /\ line = ("Copying " ++ m ++ "...")%string
  end.

Definition error_filtered (e : error) : Prop :=
  match e with
  | JsError message =>
      exists m, INCLUDE_PATTERN_test m = true /\ message = ("Can not find " ++ m)%string
  | _ => True
  end.

Definition state_filtered {E : Env} (st : state E) : Prop :=
  Forall (fun name => INCLUDE_PATTERN_test name = true) (JsMap.keys (queue st)) /\
  Forall (event_filtered E) (trace st).

Definition outcome_filtered {E : Env} (o : outcome E) : Prop :=
  state_filtered (state_of o) /\
  match o with Threw e _ => error_filtered e | _ => True end.

(** The iterator of the current pass has left only empty slots behind, and
    a pass that has ended has left an empty queue. *)
Definition drained {E : Env} (st : state E) : Prop :=
  match iter st with
  | Some idx =>
      passes st = 1 /\ idx <= List.length (queue st) /\
      firstn idx (queue st) = repeat None idx
  | None => passes st = 0 \/ (passes st = 1 /\ JsMap.size (queue st) = 0)
  end.

(** The loop passes over the queue as it is: at most one pass is made, and
    while the script has not thrown, an iterator that is exhausted has left
    nothing in the queue: whatever was added during the pass has been
    visited in it. *)
Definition live_iteration {E : Env} (o : outcome E) : Prop :=
  passes (state_of o) <= 1 /\
  match o with
  | Threw _ _ => True
  | Running st | Finished st =>
      match iter st with
      | Some idx => JsMap.next (queue st) idx = None -> JsMap.size (queue st) = 0
      | None => passes st = 1 -> JsMap.size (queue st) = 0
      end
  end.

(** One invocation for the executable and one for each entry removed. *)
Definition scans_match_removals {E : Env} (st : state E) : Prop :=
  exec_count (trace st) = S (JsMap.removed (queue st)) /\
  NoDup (JsMap.keys (queue st)).

(** Number of entries of the queue whose module has depth [k]. *)
Definition at_depth (depth : string -> nat) (k : nat) (m : JsMap.t) : nat :=
  List.length (filter (fun e => Nat.eqb (depth (fst e)) k) (JsMap.entries m)).

Definition ended {E : Env} (o : outcome E) : Prop :=
  match o with Running _ => False | _ => True end.

(** The three ways in which the loop body leaves the entry [(m, fp)]: it
    throws before the entry is deleted (the search or the copy failed); it
    deletes the entry and the scan of its file throws; or it deletes the
    entry, scans its file and enqueues the children.  [evs] are the events
    before the scan. *)
Inductive processed {E : Env} (st : state E) (m : string) (fp : FilePath)
  : outcome E -> Prop :=
| processed_failed : forall e evs,
    resolved fp = None ->
    Forall (fun ev => is_exec ev = false) evs ->
    (INCLUDE_PATTERN_test m = true ->
     Forall (event_filtered E) evs /\ error_filtered e) ->
    processed st m fp
      (Threw e (mkState (queue st) (iter st) (fs st) (trace st ++ evs) (passes st)))
| processed_scan_threw : forall fs' evs,
    Forall (fun ev => is_exec ev = false) evs ->
    (INCLUDE_PATTERN_test m = true -> Forall (event_filtered E) evs) ->
    scan E fs' (populate_path E (m, fp)) = None ->
    processed st m fp
      (Threw (ExecError (populate_path E (m, fp)))
             (mkState (JsMap.delete m (queue st)) (iter st) fs'
                      (trace st ++ evs ++ [Exec (populate_path E (m, fp))])
                      (passes st)))
| processed_expanded : forall fs' evs children,
    Forall (fun ev => is_exec ev = false) evs ->
    (INCLUDE_PATTERN_test m = true -> Forall (event_filtered E) evs) ->
    scan E fs' (populate_path E (m, fp)) = Some children ->
    processed st m fp
      (Running (mkState (enqueue_children (JsMap.delete m (queue st)) children)
                        (iter st) fs'
                        (trace st ++ evs ++ [Exec (populate_path E (m, fp))])
                        (passes st))).

(** The states through which the run of [cyclic_env] cycles: the iterator
    stands at the only entry of the queue, which is vtkA or vtkB. *)
Definition cycling (st : state cyclic_env) : Prop :=
  exists k name,
    iter st = Some k /\
    queue st = repeat None k ++ [Some (name, Some ("C:/vtk/" ++ name)%string)] /\
    (name = "vtkA.dll" \/ name = "vtkB.dll").

(** Depth levels in [chain_env]: vtkB is a leaf, vtkA lies above it. *)
Definition chain_depth (name : string) : nat :=
  if String.eqb name "vtkA.dll" then 1 else 0.

(** Every filtered dependency of a module of the closure lies at a strictly
    lower depth than the module. *)
Definition acyclic (E : Env) (depth : string -> nat) : Prop :=
  forall e fs c,
    in_closure E e ->
    In c (children_of E fs (populate_path E e)) ->
    depth (fst c) < depth (fst e).

(** What the loop needs to know about a state inside the [for...of]. *)
Definition in_pass {E : Env} (st : state E) : Prop :=
  (exists idx, iter st = Some idx) /\
  drained st /\
  Forall (in_closure E) (JsMap.entries (queue st)).

(** From a state inside the pass the run ends, or reaches an entry of depth
    at least [D]; until then it has processed entries of lower depths only,
    so the numbers of entries at depths from [D] on have not grown. *)
Definition reaches {E : Env} (depth : string -> nat) (D : nat) (st : state E)
  : Prop :=
  exists fuel,
    (forall k, D <= k ->
               at_depth depth k (queue (state_of (run_from fuel st)))
               <= at_depth depth k (queue st)) /\
    (ended (run_from fuel st) \/
     exists st' idx idx' m fp,
       run_from fuel st = Running st' /\ in_pass st' /\
       iter st' = Some idx /\
       JsMap.next (queue st') idx = Some (idx', (m, fp)) /\
       D <= depth m).

(** ** The statements of the specification that the script does not meet *)

(** No self-reintroduction: a name that has been in the worklist and has
    left it is never in the worklist again. *)
Definition no_reintroduction (E : Env) : Prop :=
  forall n1 n2 n3 name,
    n1 <= n2 -> n2 <= n3 ->
    JsMap.has name (queue (state_of (run E n1))) = true ->
    JsMap.has name (queue (state_of (run E n2))) = false ->
    JsMap.has name (queue (state_of (run E n3))) = false.

(** One oracle invocation per unique module name of the closure, plus the
    scan of the executable. *)
Definition one_scan_per_name (E : Env) : Prop :=
  forall names fuel st,
    closure_names E names ->
    run E fuel = Finished st ->
    exec_count (trace st) = S (List.length names).

(** Snapshot per pass: an entry visited during a pass occupies a slot that
    the queue already had when the pass began ([st0] is at the [while]
    test, [st] is [k] steps later within the pass that begins at [st0]). *)
Definition snapshot_per_pass (E : Env) : Prop :=
  forall n k st0 st idx idx' pair_,
    run E n = Running st0 ->
    iter st0 = None ->
    run_from k st0 = Running st ->
    passes st = S (passes st0) ->
    iter st = Some idx ->
    JsMap.next (queue st) idx = Some (idx', pair_) ->
    idx' <= List.length (queue st0).

(** No write for a non-null path: in every run, processing an entry whose
    path is not [null] leaves the file system as it is and copies nothing. *)
Definition non_null_path_writes_nothing (E : Env) : Prop :=
  forall fuel st idx idx' m p,
    run E fuel = Running st ->
    iter st = Some idx ->
    JsMap.next (queue st) idx = Some (idx', (m, Some p)) ->
    fs (state_of (step st)) = fs st /\
    Forall (fun ev => is_copy ev = false) (new_events st (step st)).

(** Termination whenever the filtered transitive dependency set is finite:
    some amount of fuel lets the script finish.  (The specification also
    bounds the number of passes; that only asks for more.) *)
Definition terminates_when_finite (E : Env) : Prop :=
  finite_closure E -> exists fuel st, run E fuel = Finished st.

(** ** Further observations on the adapter and on runs *)

(** The module names that pass the filter, in the order of the report. *)
Definition included_names (deps : list Dep) : list string :=
  filter INCLUDE_PATTERN_test (map ModuleName deps).

(** The names of [names] that are not in [seen], each at the place of its
    first occurrence. *)
Fixpoint first_occurrences (seen names : list string) : list string :=
  match names with
  | [] => []
  | name :: names' =>
      if in_dec string_dec name seen then first_occurrences seen names'
      else name :: first_occurrences (seen ++ [name]) names'
  end.

(** The directory [dir] can be listed and the search finds no file for [m]
    in it ([files.find] returns nothing truthy). *)
Definition no_match (E : Env) (fs : FS E) (m : string) (dir : string) : Prop :=
  exists files,
    readdirSync E fs dir = Some files /\
    resolved (find (fun f => String.eqb f m) files) = None.

(** The line that announces the copy of [m]. *)
Definition copying_line (m : string) : string := "Copying " ++ m ++ "...".

(** The events of a search that stops at [d], the last of the directories
    [before ++ [d]] that it reads, and announces and makes the copy. *)
Definition copy_events (E : Env) (before : list string) (d m : string) : list event :=
  map Readdir (before ++ [d]) ++
  [ConsoleLog (copying_line m);
   CopyFile (path_join E d m) (path_join E (EXE_DIR_PATH E) m)].

(** Everything the loop body can do with the entry [(m, fp)], with its
    causes: the path is resolved and the file is scanned; or no directory
    has a match; or a directory cannot be listed; or the copy fails; or the
    copy is made and the copied file is scanned. *)
Inductive handled {E : Env} (st : state E) (m : string) (fp : FilePath)
  : outcome E -> Prop :=
| handled_resolved : forall p,
    resolved fp = Some p ->
    handled st m fp
      (expand (mkState (JsMap.delete m (queue st)) (iter st) (fs st) (trace st)
                       (passes st)) p)
| handled_no_match :
    resolved fp = None ->
    Forall (no_match E (fs st) m) (SEARCH_DIRS E) ->
    handled st m fp
      (Threw (JsError ("Can not find " ++ m))
             (mkState (queue st) (iter st) (fs st)
                      (trace st ++ map Readdir (SEARCH_DIRS E)) (passes st)))
| handled_unlisted : forall before d after,
    resolved fp = None ->
    SEARCH_DIRS E = before ++ d :: after ->
    Forall (no_match E (fs st) m) before ->
    readdirSync E (fs st) d = None ->
    handled st m fp
      (Threw (FsError d)
             (mkState (queue st) (iter st) (fs st)
                      (trace st ++ map Readdir (before ++ [d])) (passes st)))
| handled_copy_failed : forall before d after files,
    resolved fp = None ->
    SEARCH_DIRS E = before ++ d :: after ->
    Forall (no_match E (fs st) m) before ->
    readdirSync E (fs st) d = Some files -> In m files -> m <> "" ->
    copyFileSync E (fs st) (path_join E d m) (path_join E (EXE_DIR_PATH E) m) = None ->
    handled st m fp
      (Threw (FsError (path_join E d m))
             (mkState (queue st) (iter st) (fs st)
                      (trace st ++ copy_events E before d m) (passes st)))
| handled_copied : forall before d after files fs',
    resolved fp = None ->
    SEARCH_DIRS E = before ++ d :: after ->
    Forall (no_match E (fs st) m) before ->
    readdirSync E (fs st) d = Some files -> In m files -> m <> "" ->
    copyFileSync E (fs st) (path_join E d m) (path_join E (EXE_DIR_PATH E) m)
    = Some fs' ->
    handled st m fp
      (expand (mkState (JsMap.delete m (queue st)) (iter st) fs'
                       (trace st ++ copy_events E before d m) (passes st))
              (path_join E (EXE_DIR_PATH E) m)).


(** The file system that results from [fs] when the copies recorded in a
    trace are made in turn; a copy that fails changes nothing. *)
Fixpoint replay_copies (E : Env) (fs : FS E) (tr : list event) : FS E :=
  match tr with
  | [] => fs
  | CopyFile src dest :: tr' =>
      match copyFileSync E fs src dest with
      | Some fs' => replay_copies E fs' tr'
      | None => replay_copies E fs tr'
      end
  | _ :: tr' => replay_copies E fs tr'
  end.

(** Dependencies resolves every module that passes the filter. *)
Definition all_resolved (E : Env) : Prop :=
  forall fs targetPath deps d,
    dependencies E fs targetPath = Some deps ->
    In d deps ->
    INCLUDE_PATTERN_test (ModuleName d) = true ->
    truthy (Filepath d) = true.

(** An event of a run in which nothing is missing. *)
Definition quiet_event (E : Env) (ev : event) : Prop :=
  match ev with
  | Exec _ => True
  | ConsoleLog line => line = cost_line E
  | _ => False
  end.

(** What holds throughout a run in which every filtered module is
    resolved. *)
Definition untouched {E : Env} (o : outcome E) : Prop :=
  Forall (fun e => truthy (snd e) = true) (JsMap.entries (queue (state_of o))) /\
  fs (state_of o) = fs_init E /\
  Forall (quiet_event E) (trace (state_of o)) /\
  match o with
  | Threw (JsError _) _ | Threw (FsError _) _ => False
  | _ => True
  end.

(** The only lines on the console are announcements of copies. *)
Definition logs_only_copies (tr : list event) : Prop :=
  Forall (fun ev => match ev with
                    | ConsoleLog line => exists m, line = copying_line m
                    | _ => True
                    end) tr.

(** The console of a run: announcements of copies, and the elapsed time as
    the last line exactly when the script has finished. *)
Definition console_shape {E : Env} (o : outcome E) : Prop :=
  match o with
  | Finished st =>
      exists tr, trace st = tr ++ [ConsoleLog (cost_line E)] /\ logs_only_copies tr
  | Running st | Threw _ st => logs_only_copies (trace st)
  end.

(** Only configured search directories are listed. *)
Definition reads_configured (E : Env) (tr : list event) : Prop :=
  Forall (fun ev => match ev with
                    | Readdir dir => In dir (SEARCH_DIRS E)
                    | _ => True
                    end) tr.

(** Every copy in the trace comes right after the listing of the search
    directory it copies from and the line that announces it, and goes into
    the directory of the executable under the same name. *)
Definition copies_announced (E : Env) (tr : list event) : Prop :=
  forall pre src dest post,
    tr = pre ++ CopyFile src dest :: post ->
    exists pre' d m,
      pre = pre' ++ [Readdir d; ConsoleLog (copying_line m)] /\
      In d (SEARCH_DIRS E) /\
      src = path_join E d m /\
      dest = path_join E (EXE_DIR_PATH E) m.

(** The files that Dependencies is run on: the executable and the files of
    the entries of the closure. *)
Definition scans_known (E : Env) (tr : list event) : Prop :=
  Forall (fun ev => match ev with
                    | Exec targetPath =>
                        targetPath = EXE_PATH E \/
                        exists e, in_closure E e /\ targetPath = populate_path E e
                    | _ => True
                    end) tr.

(** What has gone wrong when the script throws [e] in the state [st]. *)
Definition genuine {E : Env} (e : error) (st : state E) : Prop :=
  match e with
  | ExecError targetPath =>
      dependencies E (fs st) targetPath = None /\
      exists pre, trace st = pre ++ [Exec targetPath]
  | JsError message =>
      exists m fp,
        message = ("Can not find " ++ m)%string /\
        In (m, fp) (JsMap.entries (queue st)) /\
        truthy fp = false /\
        Forall (lists_without E (fs st) m) (SEARCH_DIRS E)
  | FsError path =>
      (In path (SEARCH_DIRS E) /\ readdirSync E (fs st) path = None) \/
      (exists d m,
         In d (SEARCH_DIRS E) /\ path = path_join E d m /\
         copyFileSync E (fs st) path (path_join E (EXE_DIR_PATH E) m) = None)
  end.

(** Environments for the failures of the collaborators. *)

(** The first search directory does not exist; the second has vtkB. *)
Definition unlisted_env : Env :=
  table_env "./QtVtk1.exe" ["D:/sdk/gone"; "D:/sdk/two"]
    [("./QtVtk1.exe", [absent "vtkB.dll"]);
     ("vtkB.dll", [])]
    [("D:/sdk/two", ["vtkB.dll"])].


(** vtkB is found and copied, but Dependencies fails on the copy. *)
Definition unscannable_env : Env :=
  table_env "./QtVtk1.exe" ["D:/sdk/one"; "D:/sdk/two"]
    [("./QtVtk1.exe", [absent "vtkB.dll"; present "vtkA.dll"]);
     ("C:/vtk/vtkA.dll", [])]
    [("D:/sdk/one", []);
     ("D:/sdk/two", ["vtkB.dll"])].

(** * Proofs *)

(** ** Runs of the sample environments *)

(** vtkA is resolved and only scanned; vtkB is copied from the second search
    directory and then scanned; Qt5Core is ignored. *)
Example deploy_run :
  run deploy_env 5 =
  Finished (@mkState deploy_env [None; None] None
              [("D:/sdk/two/vtkB.dll", "vtkB.dll")]
              [Exec "./QtVtk1.exe"; Exec "C:/vtk/vtkA.dll";
               Readdir "D:/sdk/one"; Readdir "D:/sdk/two";
               ConsoleLog "Copying vtkB.dll...";
               CopyFile "D:/sdk/two/vtkB.dll" "vtkB.dll";
               Exec "vtkB.dll"; ConsoleLog "Cost time 2 sec"]
              1).
Proof. vm_compute. reflexivity. Qed.

(** vtkD is found by vtkA and again by vtkC while it waits in the queue: it
    is scanned once. *)
Example diamond_run :
  trace (state_of (run diamond_env 6)) =
  [Exec "./QtVtk1.exe"; Exec "C:/vtk/vtkA.dll"; Exec "C:/vtk/vtkC.dll";
   Exec "C:/vtk/vtkD.dll"; ConsoleLog "Cost time 2 sec"].
Proof. vm_compute. reflexivity. Qed.

(** vtkD is found by vtkA, scanned and removed, and found again by vtkC: it
    is scanned twice. *)
Example shared_run :
  trace (state_of (run shared_env 7)) =
  [Exec "./QtVtk1.exe"; Exec "C:/vtk/vtkA.dll"; Exec "C:/vtk/vtkD.dll";
   Exec "C:/vtk/vtkC.dll"; Exec "C:/vtk/vtkD.dll"; ConsoleLog "Cost time 2 sec"].
Proof. vm_compute. reflexivity. Qed.

(** After six steps the run of [cyclic_env] is scanning vtkA for the third
    time. *)
Example cyclic_run :
  run cyclic_env 6 =
  Running (@mkState cyclic_env
             [None; None; None; None; None;
              Some ("vtkB.dll", Some "C:/vtk/vtkB.dll")]
             (Some 5) []
             [Exec "./QtVtk1.exe"; Exec "C:/vtk/vtkA.dll"; Exec "C:/vtk/vtkB.dll";
              Exec "C:/vtk/vtkA.dll"; Exec "C:/vtk/vtkB.dll"; Exec "C:/vtk/vtkA.dll"]
             1).
Proof. vm_compute. reflexivity. Qed.

(** ** Facts about the [Map] model *)

Module JsMapFacts.
Import JsMap.

Lemma entries_app (a b : t) : entries (a ++ b) = entries a ++ entries b.
Proof.
  induction a as [|[e|] a IH]; simpl; auto.
  now rewrite IH.
Qed.

Lemma entries_repeat_None (n : nat) : entries (repeat None n) = [].
Proof. induction n; simpl; auto. Qed.

Lemma entries_map_Some (l : list (string * FilePath)) : entries (map Some l) = l.
Proof. induction l; simpl; congruence. Qed.

Lemma keys_app (a b : t) : keys (a ++ b) = keys a ++ keys b.
Proof. unfold keys. now rewrite entries_app, map_app. Qed.

Lemma size_app (a b : t) : size (a ++ b) = size a + size b.
Proof. unfold size. now rewrite entries_app, length_app. Qed.

Lemma size_le_length (m : t) : size m <= List.length m.
Proof.
  unfold size. induction m as [|[e|] m IH]; simpl; lia.
Qed.

Lemma has_true_iff (k : string) (m : t) : has k m = true <-> In k (keys m).
Proof.
  unfold has, keys.
  induction m as [|[[k' v]|] m IH]; simpl.
  - split; [discriminate | tauto].
  - destruct (String.eqb_spec k' k); simpl.
    + split; auto.
    + rewrite IH. split; auto. intros [H|H]; [congruence | auto].
  - exact IH.
Qed.

Lemma has_false_iff (k : string) (m : t) : has k m = false <-> ~ In k (keys m).
Proof.
  rewrite <- has_true_iff. destruct (has k m); split; congruence.
Qed.

Lemma has_app (k : string) (a b : t) : has k (a ++ b) = has k a || has k b.
Proof. unfold has. apply existsb_app. Qed.

Lemma set_fresh (k : string) (v : FilePath) (m : t) :
  has k m = false -> set k v m = m ++ [Some (k, v)].
Proof.
  unfold has.
  induction m as [|[[k' v']|] m IH]; simpl; intros H; auto.
  - apply orb_false_iff in H. destruct H as [H1 H2].
    rewrite H1. now rewrite IH.
  - now rewrite IH.
Qed.

Lemma keys_set (k : string) (v : FilePath) (m : t) :
  keys (set k v m) = if has k m then keys m else keys m ++ [k].
Proof.
  unfold has, keys.
  induction m as [|[[k' v']|] m IH]; simpl; auto.
  destruct (String.eqb_spec k' k); simpl; auto.
  rewrite IH. now destruct (existsb (slot_has_key k) m).
Qed.

Lemma get_set_same (k : string) (v : FilePath) (m : t) :
  get k (set k v m) = Some v.
Proof.
  induction m as [|[[k' v']|] m IH]; simpl.
  - now rewrite String.eqb_refl.
  - destruct (String.eqb_spec k' k); simpl.
    + subst. now rewrite String.eqb_refl.
    + destruct (String.eqb_spec k' k); [contradiction | exact IH].
  - exact IH.
Qed.

Lemma get_set_other (k k' : string) (v : FilePath) (m : t) :
  k <> k' -> get k' (set k v m) = get k' m.
Proof.
  intros Hne.
  induction m as [|[[k0 v0]|] m IH]; simpl.
  - destruct (String.eqb_spec k k'); [contradiction | reflexivity].
  - destruct (String.eqb_spec k0 k); simpl.
    + subst. destruct (String.eqb_spec k k'); [contradiction | reflexivity].
    + now rewrite IH.
  - exact IH.
Qed.

Lemma get_Some_in_keys (k : string) (v : FilePath) (m : t) :
  get k m = Some v -> In k (keys m).
Proof.
  unfold keys.
  induction m as [|[[k' v']|] m IH]; simpl; try discriminate; auto.
  destruct (String.eqb_spec k' k); auto.
Qed.

Lemma NoDup_keys_set (k : string) (v : FilePath) (m : t) :
  NoDup (keys m) -> NoDup (keys (set k v m)).
Proof.
  intros H. rewrite keys_set.
  destruct (has k m) eqn:Hk; auto.
  apply has_false_iff in Hk.
  apply NoDup_app; auto.
  - constructor; [intros [] | constructor].
  - intros x Hx [<-|[]]. contradiction.
Qed.

Lemma count_key_NoDup (name : string) (m : t) :
  NoDup (keys m) -> In name (keys m) -> count_key name m = 1.
Proof.
  unfold count_key, keys.
  induction (entries m) as [|[k v] l IH]; simpl; intros Hnd Hin; [contradiction|].
  inversion Hnd as [|? ? Hnotin Hnd']; subst.
  destruct (String.eqb_spec k name) as [->|Hne]; simpl.
  - f_equal.
    assert (Hnone : forall l', ~ In name (map fst l') ->
              filter (fun e : string * FilePath => String.eqb (fst e) name) l' = []).
    { induction l' as [|[k' v'] l' IH']; simpl; intros Hn; auto.
      destruct (String.eqb_spec k' name); [exfalso; auto | apply IH'; tauto]. }
    now rewrite Hnone.
  - destruct Hin as [Heq|Hin]; [contradiction | auto].
Qed.

Lemma delete_at (k : string) (v : FilePath) (n : nat) (rest : t) :
  delete k (repeat None n ++ Some (k, v) :: rest) = repeat None (S n) ++ rest.
Proof.
  induction n; simpl.
  - now rewrite String.eqb_refl.
  - now rewrite IHn.
Qed.

Lemma length_delete (k : string) (m : t) : List.length (delete k m) = List.length m.
Proof.
  induction m as [|[[k' v']|] m IH]; simpl; auto.
  destruct (String.eqb k' k); simpl; auto.
Qed.

Lemma find_from_Some (rest : t) (idx idx' : nat) (e : string * FilePath) :
  find_from rest idx = Some (idx', e) ->
  exists j rest', rest = repeat None j ++ Some e :: rest' /\ idx' = S (idx + j).
Proof.
  revert idx.
  induction rest as [|[e0|] rest IH]; simpl; intros idx H; try discriminate.
  - inversion H; subst. exists 0, rest. simpl. split; [reflexivity | lia].
  - apply IH in H. destruct H as (j & rest' & -> & ->).
    exists (S j), rest'. simpl. split; [reflexivity | lia].
Qed.

Lemma find_from_None (rest : t) (idx : nat) :
  find_from rest idx = None -> entries rest = [].
Proof.
  revert idx.
  induction rest as [|[e0|] rest IH]; simpl; intros idx H; try discriminate; eauto.
Qed.

(** The slots of a map whose iterator stands at [idx] after leaving only
    empty slots behind, when the iterator finds a next entry. *)
Lemma next_Some (m : t) (idx idx' : nat) (e : string * FilePath) :
  firstn idx m = repeat None idx ->
  next m idx = Some (idx', e) ->
  exists rest, m = repeat None (idx' - 1) ++ Some e :: rest /\ idx < idx'.
Proof.
  unfold next. intros Hpre H.
  apply find_from_Some in H. destruct H as (j & rest & Hskip & ->).
  exists rest. split; [|lia].
  rewrite <- (firstn_skipn idx m), Hpre, Hskip.
  replace (S (idx + j) - 1) with (idx + j) by lia.
  now rewrite repeat_app, <- app_assoc.
Qed.

Lemma next_None (m : t) (idx : nat) :
  firstn idx m = repeat None idx ->
  next m idx = None -> size m = 0.
Proof.
  unfold next, size. intros Hpre H.
  apply find_from_None in H.
  rewrite <- (firstn_skipn idx m), Hpre, entries_app, entries_repeat_None, H.
  reflexivity.
Qed.

Lemma firstn_repeat_app (n : nat) (rest : t) :
  firstn n (repeat None n ++ rest) = repeat None n.
Proof.
  induction n; simpl; auto. now rewrite IHn.
Qed.

End JsMapFacts.

(** ** The adapter *)

Lemma find_app {A : Type} (f : A -> bool) (l1 l2 : list A) :
  find f (l1 ++ l2) = match find f l1 with Some x => Some x | None => find f l2 end.
Proof.
  induction l1 as [|a l1 IH]; simpl; auto.
  destruct (f a); auto.
Qed.

Lemma last_reported_cons (name : string) (d : Dep) (deps : list Dep) :
  last_reported name (d :: deps) =
  match last_reported name deps with
  | Some v => Some v
  | None => if String.eqb (ModuleName d) name then Some (Filepath d) else None
  end.
Proof.
  unfold last_reported. simpl. rewrite find_app. simpl.
  destruct (find _ (rev deps)); simpl; auto.
  destruct (String.eqb (ModuleName d) name); reflexivity.
Qed.

Lemma last_reported_In (name : string) (deps : list Dep) :
  In name (map ModuleName deps) -> exists v, last_reported name deps = Some v.
Proof.
  induction deps as [|d deps IH]; simpl; intros H; [contradiction|].
  rewrite last_reported_cons.
  destruct (last_reported name deps) as [v|] eqn:Hl; eauto.
  destruct H as [<-|H].
  - rewrite String.eqb_refl. eauto.
  - destruct (IH H) as [v Hv]. discriminate.
Qed.

Lemma scan_fold_get (name : string) (deps : list Dep) (acc : JsMap.t) :
  INCLUDE_PATTERN_test name = true ->
  JsMap.get name (fold_left scan_dep deps acc) =
  match last_reported name deps with
  | Some v => Some v
  | None => JsMap.get name acc
  end.
Proof.
  intros Hinc. revert acc.
  induction deps as [|d deps IH]; intros acc; simpl; auto.
  rewrite IH, last_reported_cons.
  destruct (last_reported name deps); auto.
  unfold scan_dep.
  destruct (String.eqb_spec (ModuleName d) name) as [Heq|Hne].
  - rewrite Heq, Hinc. apply JsMapFacts.get_set_same.
  - destruct (INCLUDE_PATTERN_test (ModuleName d)); auto.
    now apply JsMapFacts.get_set_other.
Qed.

Lemma scan_fold_NoDup (deps : list Dep) (acc : JsMap.t) :
  NoDup (JsMap.keys acc) -> NoDup (JsMap.keys (fold_left scan_dep deps acc)).
Proof.
  revert acc. induction deps as [|d deps IH]; intros acc H; simpl; auto.
  apply IH. unfold scan_dep.
  destruct (INCLUDE_PATTERN_test (ModuleName d)); auto.
  now apply JsMapFacts.NoDup_keys_set.
Qed.

Lemma scan_fold_keys (deps : list Dep) (acc : JsMap.t) :
  Forall (fun name => INCLUDE_PATTERN_test name = true) (JsMap.keys acc) ->
  Forall (fun name => INCLUDE_PATTERN_test name = true)
         (JsMap.keys (fold_left scan_dep deps acc)).
Proof.
  revert acc. induction deps as [|d deps IH]; intros acc H; simpl; auto.
  apply IH. unfold scan_dep.
  destruct (INCLUDE_PATTERN_test (ModuleName d)) eqn:Hinc; auto.
  rewrite JsMapFacts.keys_set.
  destruct (JsMap.has (ModuleName d) acc); auto.
  apply Forall_app. split; auto.
Qed.

Lemma scan_deps_NoDup (deps : list Dep) : NoDup (JsMap.keys (scan_deps deps)).
Proof. apply scan_fold_NoDup. constructor. Qed.

Lemma scan_deps_keys (deps : list Dep) :
  Forall (fun name => INCLUDE_PATTERN_test name = true) (JsMap.keys (scan_deps deps)).
Proof. apply scan_fold_keys. constructor. Qed.

Lemma scan_deps_no_hole (deps : list Dep) :
  scan_deps deps = map Some (JsMap.entries (scan_deps deps)).
Proof.
  unfold scan_deps.
  assert (H : forall acc, acc = map Some (JsMap.entries acc) ->
              fold_left scan_dep deps acc
              = map Some (JsMap.entries (fold_left scan_dep deps acc))).
  { induction deps as [|d deps IH]; intros acc Hacc; simpl; auto.
    apply IH. unfold scan_dep.
    destruct (INCLUDE_PATTERN_test (ModuleName d)); auto.
    clear IH. revert Hacc. generalize (ModuleName d) (Filepath d). intros k v.
    induction acc as [|[[k' v']|] acc IHacc]; simpl; intros Hacc; auto.
    - assert (Hacc' : acc = map Some (JsMap.entries acc)) by congruence.
      destruct (String.eqb k' k); simpl; f_equal; auto.
    - destruct (JsMap.entries acc); discriminate. }
  apply H. reflexivity.
Qed.

(** C8. For every file, the result of [scan] is a map keyed by module name:
    a module name that passes the filter and is reported once or several
    times among the dependencies of the file has exactly one entry in the
    result, no name has two entries, and the path of the entry is the one of
    the last report of that name. *)
Theorem scan_one_entry_last_wins (E : Env) (fs : FS E) (targetPath : string)
    (deps : list Dep) (name : string) :
  dependencies E fs targetPath = Some deps ->
  INCLUDE_PATTERN_test name = true ->
  In name (map ModuleName deps) ->
  exists result,
    scan E fs targetPath = Some result /\
    NoDup (JsMap.keys result) /\
    count_key name result = 1 /\
    JsMap.get name result = last_reported name deps.
Proof.
  intros Hdeps Hinc Hin.
  exists (scan_deps deps).
  assert (Hget : JsMap.get name (scan_deps deps) = last_reported name deps).
  { unfold scan_deps. rewrite scan_fold_get by assumption.
    destruct (last_reported_In name deps Hin) as [v ->]. reflexivity. }
  split; [unfold scan; now rewrite Hdeps|].
  split; [apply scan_deps_NoDup|].
  split; [|assumption].
  apply JsMapFacts.count_key_NoDup; [apply scan_deps_NoDup|].
  destruct (last_reported_In name deps Hin) as [v Hv].
  apply JsMapFacts.get_Some_in_keys with (v := v). congruence.
Qed.

Lemma scan_one_entry_last_wins_witness :
  exists result,
    scan twice_env (fs_init twice_env) "./QtVtk1.exe" = Some result /\
    NoDup (JsMap.keys result) /\
    count_key "vtkA.dll" result = 1 /\
    JsMap.get "vtkA.dll" result = Some None.
Proof.
  apply (scan_one_entry_last_wins twice_env (fs_init twice_env) "./QtVtk1.exe"
           [present "vtkA.dll"; present "vtkC.dll"; absent "vtkA.dll"] "vtkA.dll").
  - reflexivity.
  - reflexivity.
  - simpl. auto.
Defined.

(** ** The loop body *)

Lemma resolved_Some (v : option string) (s : string) :
  resolved v = Some s -> v = Some s /\ s <> "".
Proof.
  unfold resolved, truthy. destruct v as [s'|]; [|discriminate].
  destruct (String.eqb_spec s' ""); simpl; [discriminate|].
  intros H. inversion H; subst. auto.
Qed.

Lemma resolved_None (v : option string) :
  resolved v = None -> truthy v = false.
Proof.
  unfold resolved. destruct (truthy v) eqn:Ht; auto.
  intros ->. discriminate Ht.
Qed.

Lemma truthy_resolved (v : option string) :
  truthy v = true -> exists s, v = Some s /\ resolved v = Some s.
Proof.
  unfold resolved. intros H. rewrite H.
  destruct v as [s|]; [eauto | discriminate].
Qed.

Lemma find_eqb_Some (m f : string) (files : list string) :
  find (fun f => String.eqb f m) files = Some f -> f = m /\ In m files.
Proof.
  intros H. apply find_some in H. destruct H as [Hin Heq].
  apply String.eqb_eq in Heq. subst. auto.
Qed.

Lemma find_eqb_None (m : string) (files : list string) :
  ~ In m files -> find (fun f => String.eqb f m) files = None.
Proof.
  induction files as [|f files IH]; simpl; intros H; auto.
  destruct (String.eqb_spec f m); [exfalso; auto | apply IH; tauto].
Qed.

Lemma find_eqb_In (m : string) (files : list string) :
  In m files -> find (fun f => String.eqb f m) files = Some m.
Proof.
  induction files as [|f files IH]; simpl; intros H; [contradiction|].
  destruct (String.eqb_spec f m); [congruence|].
  destruct H; [contradiction | auto].
Qed.

Lemma search_spec (E : Env) (fs : FS E) (dirs : list string) (m : string)
    (reads : list event) (found : search_result) :
  search E fs dirs m = (reads, found) ->
  Forall (fun ev => is_readdir ev = true) reads /\
  match found with
  | Match f d => f = m /\ m <> "" /\ In d dirs
  | _ => True
  end.
Proof.
  revert reads found.
  induction dirs as [|d dirs IH]; simpl; intros reads found H.
  - inversion H; subst. auto.
  - destruct (readdirSync E fs d) as [files|].
    + destruct (resolved (find (fun f => String.eqb f m) files)) as [f|] eqn:Hres.
      * inversion H; subst. split; [repeat constructor|].
        apply resolved_Some in Hres. destruct Hres as [Hfind Hne].
        apply find_eqb_Some in Hfind. destruct Hfind as [-> _]. auto.
      * destruct (search E fs dirs m) as [evs r].
        inversion H; subst.
        destruct (IH evs found eq_refl) as [Hevs Hfound].
        split; [constructor; auto|].
        destruct found; auto. tauto.
    + inversion H; subst. split; [repeat constructor | exact I].
Qed.

Lemma readdirs_not_exec (reads : list event) :
  Forall (fun ev => is_readdir ev = true) reads ->
  Forall (fun ev => is_exec ev = false) reads.
Proof.
  apply Forall_impl. intros [] H; simpl in *; congruence.
Qed.

Lemma readdirs_filtered (E : Env) (reads : list event) :
  Forall (fun ev => is_readdir ev = true) reads ->
  Forall (event_filtered E) reads.
Proof.
  apply Forall_impl. intros [] H; simpl in *; try discriminate. exact I.
Qed.

Lemma process_processed {E : Env} (st : state E) (m : string) (fp : FilePath) :
  processed st m fp (process st (m, fp)).
Proof.
  unfold process.
  destruct (resolved fp) as [p|] eqn:Hres.
  - assert (Hp : populate_path E (m, fp) = p)
      by (unfold populate_path; simpl; now rewrite Hres).
    unfold expand; simpl. rewrite <- Hp.
    destruct (scan E (fs st) (populate_path E (m, fp))) as [children|] eqn:Hscan.
    + apply (processed_expanded st m fp (fs st) [] children); auto.
    + apply (processed_scan_threw st m fp (fs st) []); auto.
  - assert (Hp : populate_path E (m, fp) = path_join E (EXE_DIR_PATH E) m)
      by (unfold populate_path; simpl; now rewrite Hres).
    destruct (search E (fs st) (SEARCH_DIRS E) m) as [reads found] eqn:Hsearch.
    destruct (search_spec _ _ _ _ _ _ Hsearch) as [Hreads Hfound].
    pose proof (readdirs_not_exec _ Hreads) as Hne.
    pose proof (readdirs_filtered E _ Hreads) as Hfl.
    destruct found as [f d| |d].
    + destruct Hfound as (-> & Hm & Hd).
      set (evs := reads ++ [ConsoleLog ("Copying " ++ m ++ "...");
                            CopyFile (path_join E d m) (path_join E (EXE_DIR_PATH E) m)]).
      assert (Hevs : Forall (fun ev => is_exec ev = false) evs)
        by (apply Forall_app; split; [assumption | repeat constructor]).
      assert (Hevf : INCLUDE_PATTERN_test m = true -> Forall (event_filtered E) evs).
      { intros Hinc. apply Forall_app. split; [assumption|].
        apply Forall_cons; [simpl; right; exists m; auto|].
        apply Forall_cons; [simpl; exists d, m; auto | apply Forall_nil]. }
      assert (Htr : (trace st ++ reads) ++
                    [ConsoleLog ("Copying " ++ m ++ "...");
                     CopyFile (path_join E d m) (path_join E (EXE_DIR_PATH E) m)]
                    = trace st ++ evs)
        by (unfold evs; now rewrite app_assoc).
      rewrite Htr.
      destruct (copyFileSync E (fs st) (path_join E d m)
                  (path_join E (EXE_DIR_PATH E) m)) as [fs'|].
      * unfold expand; cbn [trace fs queue iter passes].
        rewrite <- Hp, <- app_assoc.
        destruct (scan E fs' (populate_path E (m, fp))) as [children|] eqn:Hscan.
        -- apply (processed_expanded st m fp fs' evs children); auto.
        -- apply (processed_scan_threw st m fp fs' evs); auto.
      * apply processed_failed; auto; intros Hinc; split; simpl; auto.
    + apply processed_failed; auto; intros Hinc; split; simpl; eauto.
    + apply processed_failed; auto; intros Hinc; split; simpl; auto.
Qed.

(** ** Deleting from the queue and adding to it *)

Lemma keys_delete_incl (k : string) (m : JsMap.t) :
  incl (JsMap.keys (JsMap.delete k m)) (JsMap.keys m).
Proof.
  unfold JsMap.keys.
  induction m as [|[[k' v']|] m IH]; simpl; auto using incl_refl.
  destruct (String.eqb k' k); simpl.
  - apply incl_tl, incl_refl.
  - apply incl_cons; [now left | now apply incl_tl].
Qed.

Lemma entries_delete_incl (k : string) (m : JsMap.t) :
  incl (JsMap.entries (JsMap.delete k m)) (JsMap.entries m).
Proof.
  induction m as [|[[k' v']|] m IH]; simpl; auto using incl_refl.
  destruct (String.eqb k' k); simpl.
  - apply incl_tl, incl_refl.
  - apply incl_cons; [now left | now apply incl_tl].
Qed.

Lemma NoDup_keys_delete (k : string) (m : JsMap.t) :
  NoDup (JsMap.keys m) -> NoDup (JsMap.keys (JsMap.delete k m)).
Proof.
  induction m as [|[[k' v']|] m IH]; simpl; auto.
  unfold JsMap.keys in *. simpl. intros H.
  inversion H as [|? ? Hnotin Hnd]; subst.
  destruct (String.eqb k' k); simpl; auto.
  constructor; auto.
  intros Hin. apply Hnotin. now apply (keys_delete_incl k m).
Qed.

Lemma size_delete (k : string) (m : JsMap.t) :
  JsMap.has k m = true -> S (JsMap.size (JsMap.delete k m)) = JsMap.size m.
Proof.
  unfold JsMap.has, JsMap.size.
  induction m as [|[[k' v']|] m IH]; simpl; try discriminate; auto.
  destruct (String.eqb k' k); simpl; auto.
Qed.

Lemma removed_delete (k : string) (m : JsMap.t) :
  JsMap.has k m = true -> JsMap.removed (JsMap.delete k m) = S (JsMap.removed m).
Proof.
  intros H. unfold JsMap.removed.
  rewrite JsMapFacts.length_delete.
  pose proof (size_delete k m H). pose proof (JsMapFacts.size_le_length m). lia.
Qed.

Lemma removed_app_entries (m : JsMap.t) (added : list (string * FilePath)) :
  JsMap.removed (m ++ map Some added) = JsMap.removed m.
Proof.
  unfold JsMap.removed.
  rewrite length_app, length_map, JsMapFacts.size_app.
  unfold JsMap.size at 2. rewrite JsMapFacts.entries_map_Some.
  pose proof (JsMapFacts.size_le_length m). lia.
Qed.

Lemma next_entry (m : JsMap.t) (idx idx' : nat) (e : string * FilePath) :
  JsMap.next m idx = Some (idx', e) ->
  In e (JsMap.entries m) /\ JsMap.has (fst e) m = true.
Proof.
  unfold JsMap.next. intros H.
  apply JsMapFacts.find_from_Some in H. destruct H as (j & rest & Hskip & _).
  assert (Hin : In e (JsMap.entries m)).
  { rewrite <- (firstn_skipn idx m), Hskip.
    rewrite !JsMapFacts.entries_app. simpl.
    apply in_or_app. right. apply in_or_app. right. now left. }
  split; auto.
  apply JsMapFacts.has_true_iff. unfold JsMap.keys. now apply in_map.
Qed.

Lemma enqueue_child_spec (q : JsMap.t) (c : string) (cp : FilePath) :
  enqueue_child q (c, cp) =
  if JsMap.has c q then q else q ++ [Some (c, cp)].
Proof.
  unfold enqueue_child.
  destruct (JsMap.has c q) eqn:H; auto using JsMapFacts.set_fresh.
Qed.

Lemma enqueue_fold_spec (l : list (string * FilePath)) (q : JsMap.t) :
  exists added,
    fold_left enqueue_child l q = q ++ map Some added /\
    incl added l /\
    NoDup (map fst added) /\
    Forall (fun e => JsMap.has (fst e) q = false) added /\
    Forall (fun e => JsMap.has (fst e) (q ++ map Some added) = true) l.
Proof.
  revert q. induction l as [|[c cp] l IH]; intros q; cbn [fold_left].
  - exists []. simpl. rewrite app_nil_r.
    repeat split; auto using incl_refl; constructor.
  - rewrite enqueue_child_spec.
    destruct (JsMap.has c q) eqn:Hc.
    + destruct (IH q) as (added & Heq & Hincl & Hnd & Hfresh & Hall).
      exists added. repeat split; auto.
      * now apply incl_tl.
      * constructor; auto. simpl. rewrite JsMapFacts.has_app, Hc. reflexivity.
    + destruct (IH (q ++ [Some (c, cp)])) as (added & Heq & Hincl & Hnd & Hfresh & Hall).
      exists ((c, cp) :: added). simpl.
      assert (Happ : (q ++ [Some (c, cp)]) ++ map Some added
                     = q ++ Some (c, cp) :: map Some added)
        by now rewrite <- app_assoc.
      rewrite Happ in *.
      repeat split; auto.
      * apply incl_cons; [now left | now apply incl_tl].
      * constructor; auto.
        intros Hin. apply in_map_iff in Hin. destruct Hin as (e & He & Hin).
        rewrite Forall_forall in Hfresh. specialize (Hfresh e Hin).
        rewrite JsMapFacts.has_app in Hfresh. apply orb_false_iff in Hfresh.
        destruct Hfresh as [_ Hf]. rewrite He in Hf. simpl in Hf.
        rewrite String.eqb_refl in Hf. discriminate.
      * constructor; auto.
        eapply Forall_impl; [|exact Hfresh]. simpl. intros e He.
        rewrite JsMapFacts.has_app in He. apply orb_false_iff in He. tauto.
      * constructor; auto. simpl.
        rewrite JsMapFacts.has_app. simpl. rewrite String.eqb_refl.
        now rewrite orb_true_r.
Qed.

Lemma enqueue_children_spec (q children : JsMap.t) :
  exists added,
    enqueue_children q children = q ++ map Some added /\
    incl added (JsMap.entries children) /\
    NoDup (map fst added) /\
    Forall (fun e => JsMap.has (fst e) q = false) added /\
    Forall (fun e => JsMap.has (fst e) (enqueue_children q children) = true)
           (JsMap.entries children).
Proof.
  unfold enqueue_children.
  destruct (enqueue_fold_spec (JsMap.entries children) q)
    as (added & Heq & Hincl & Hnd & Hfresh & Hall).
  exists added. rewrite Heq. auto.
Qed.

(** ** Runs *)

Lemma run_from_add {E : Env} (a b : nat) (st : state E) :
  run_from (a + b) st =
  match run_from a st with
  | Running st' => run_from b st'
  | o => o
  end.
Proof.
  revert st. induction a as [|a IH]; intros st; simpl; auto.
  destruct (step st); auto.
Qed.

Lemma run_from_invariant {E : Env} (P : outcome E -> Prop) :
  (forall st, P (Running st) -> P (step st)) ->
  forall fuel st, P (Running st) -> P (run_from fuel st).
Proof.
  intros Hstep fuel. induction fuel as [|fuel IH]; intros st H; simpl; auto.
  specialize (Hstep st H).
  destruct (step st); auto.
Qed.

Lemma run_invariant {E : Env} (P : outcome E -> Prop) :
  P (start E) ->
  (forall st, P (Running st) -> P (step st)) ->
  forall fuel, P (run E fuel).
Proof.
  intros Hstart Hstep fuel. unfold run.
  destruct (start E) eqn:Hs; auto.
  now apply run_from_invariant.
Qed.

Lemma exec_count_app (a b : list event) :
  exec_count (a ++ b) = exec_count a + exec_count b.
Proof. unfold exec_count. now rewrite filter_app, length_app. Qed.

Lemma exec_count_none (evs : list event) :
  Forall (fun ev => is_exec ev = false) evs -> exec_count evs = 0.
Proof.
  unfold exec_count. induction 1 as [|ev evs Hev _ IH]; simpl; auto.
  now rewrite Hev.
Qed.

Lemma scan_Some (E : Env) (fs : FS E) (p : string) (children : JsMap.t) :
  scan E fs p = Some children ->
  exists deps, dependencies E fs p = Some deps /\ children = scan_deps deps.
Proof.
  unfold scan. destruct (dependencies E fs p) as [deps|]; [|discriminate].
  intros H. inversion H. eauto.
Qed.

(** The queue after the body has deleted the entry that the iterator
    yielded, when only empty slots lay behind the iterator. *)
Lemma delete_next (q : JsMap.t) (idx idx' : nat) (m : string) (fp : FilePath) :
  firstn idx q = repeat None idx ->
  JsMap.next q idx = Some (idx', (m, fp)) ->
  exists rest,
    q = repeat None (idx' - 1) ++ Some (m, fp) :: rest /\
    JsMap.delete m q = repeat None idx' ++ rest /\
    idx < idx'.
Proof.
  intros Hpre Hnext.
  destruct (JsMapFacts.next_Some q idx idx' (m, fp) Hpre Hnext) as (rest & Hq & Hlt).
  exists rest. split; [assumption|]. split; [|assumption].
  rewrite Hq at 1. rewrite JsMapFacts.delete_at.
  now replace (S (idx' - 1)) with idx' by lia.
Qed.

(** *** The iterator leaves nothing behind *)

Lemma step_drained {E : Env} (st : state E) :
  drained st ->
  match step st with
  | Threw _ st' => passes st' <= 1
  | Running st' | Finished st' => drained st'
  end.
Proof.
  unfold drained, step. intros Hd.
  destruct (iter st) as [idx|] eqn:Hiter.
  - destruct Hd as (Hp & Hlen & Hpre).
    destruct (JsMap.next (queue st) idx) as [[idx' [m fp]]|] eqn:Hnext.
    + destruct (delete_next _ _ _ _ _ Hpre Hnext) as (rest & Hq & Hdel & Hlt).
      destruct (process_processed
                  (mkState (queue st) (Some idx') (fs st) (trace st) (passes st)) m fp)
        as [e evs _ _ _|fs' evs _ _ _|fs' evs children _ _ _];
        cbn [queue iter fs trace passes]; try lia.
      destruct (enqueue_children_spec (JsMap.delete m (queue st)) children)
        as (added & -> & _).
      rewrite Hdel, <- app_assoc.
      repeat split; auto.
      * rewrite length_app, repeat_length. lia.
      * apply JsMapFacts.firstn_repeat_app.
    + cbn [queue iter fs trace passes]. right. split; auto.
      now apply (JsMapFacts.next_None _ idx).
  - destruct (Nat.eqb_spec (JsMap.size (queue st)) 0) as [Hz|Hnz];
      cbn [queue iter fs trace passes]; auto.
    destruct Hd as [Hp|[_ Hsz]]; [|contradiction].
    repeat split; auto. lia.
Qed.

Lemma run_drained (E : Env) (fuel : nat) :
  match run E fuel with
  | Threw _ st => passes st <= 1
  | Running st | Finished st => drained st
  end.
Proof.
  apply (run_invariant
           (fun o => match o with
                     | Threw _ st => passes st <= 1
                     | Running st | Finished st => drained st
                     end)).
  - unfold start. destruct (scan E (fs_init E) (EXE_PATH E)); simpl; auto.
    unfold drained. simpl. auto.
  - intros st H. now apply step_drained.
Qed.

Lemma drained_passes {E : Env} (st : state E) : drained st -> passes st <= 1.
Proof.
  unfold drained. destruct (iter st); intros H.
  - destruct H as [-> _]. lia.
  - destruct H as [->|[-> _]]; lia.
Qed.

(** *** One scan for each entry removed *)

Lemma exec_count_exec (p : string) : exec_count [Exec p] = 1.
Proof. reflexivity. Qed.

Lemma scan_deps_removed (deps : list Dep) : JsMap.removed (scan_deps deps) = 0.
Proof.
  unfold JsMap.removed, JsMap.size.
  rewrite (scan_deps_no_hole deps) at 1. rewrite length_map. lia.
Qed.

Lemma NoDup_keys_enqueue (q : JsMap.t) (added : list (string * FilePath)) :
  NoDup (JsMap.keys q) ->
  NoDup (map fst added) ->
  Forall (fun e => JsMap.has (fst e) q = false) added ->
  NoDup (JsMap.keys (q ++ map Some added)).
Proof.
  intros Hq Ha Hfresh.
  rewrite JsMapFacts.keys_app. unfold JsMap.keys at 2.
  rewrite JsMapFacts.entries_map_Some.
  apply NoDup_app; auto.
  intros k Hk Hin. apply in_map_iff in Hin. destruct Hin as (e & <- & Hin).
  rewrite Forall_forall in Hfresh. specialize (Hfresh e Hin).
  apply JsMapFacts.has_false_iff in Hfresh. contradiction.
Qed.

Lemma step_scans {E : Env} (st : state E) :
  scans_match_removals st -> scans_match_removals (state_of (step st)).
Proof.
  unfold scans_match_removals, step. intros [Hc Hnd].
  destruct (iter st) as [idx|].
  - destruct (JsMap.next (queue st) idx) as [[idx' [m fp]]|] eqn:Hnext;
      [|simpl; auto].
    destruct (next_entry _ _ _ _ Hnext) as [_ Hhas]. simpl in Hhas.
    destruct (process_processed
                (mkState (queue st) (Some idx') (fs st) (trace st) (passes st)) m fp)
      as [e evs _ Hev _|fs' evs Hev _ _|fs' evs children Hev _ _];
      cbn [state_of queue iter fs trace passes];
      rewrite ?exec_count_app, ?exec_count_exec, (exec_count_none evs Hev).
    + split; auto. lia.
    + rewrite removed_delete by assumption.
      split; [lia | now apply NoDup_keys_delete].
    + destruct (enqueue_children_spec (JsMap.delete m (queue st)) children)
        as (added & -> & _ & Hnda & Hfresh & _).
      rewrite removed_app_entries, removed_delete by assumption.
      split; [lia|].
      apply NoDup_keys_enqueue; auto using NoDup_keys_delete.
  - destruct (Nat.eqb (JsMap.size (queue st)) 0); simpl; auto.
    rewrite exec_count_app, (exec_count_none [ConsoleLog (cost_line E)])
      by (repeat constructor).
    split; auto. lia.
Qed.

Lemma run_scans (E : Env) (fuel : nat) :
  scans_match_removals (state_of (run E fuel)).
Proof.
  apply (run_invariant (fun o => scans_match_removals (state_of o))).
  - unfold start, scans_match_removals.
    destruct (scan E (fs_init E) (EXE_PATH E)) as [q|] eqn:Hscan; simpl.
    + apply scan_Some in Hscan. destruct Hscan as (deps & _ & ->).
      rewrite scan_deps_removed. split; auto using scan_deps_NoDup.
    + split; [reflexivity | constructor].
  - intros st H. now apply step_scans.
Qed.

(** *** Only filtered names *)

Lemma Forall_incl {A : Type} (P : A -> Prop) (l l' : list A) :
  incl l' l -> Forall P l -> Forall P l'.
Proof.
  intros Hincl H. rewrite Forall_forall in *. auto.
Qed.

Lemma keys_enqueue (q : JsMap.t) (added : list (string * FilePath)) :
  JsMap.keys (q ++ map Some added) = JsMap.keys q ++ map fst added.
Proof.
  rewrite JsMapFacts.keys_app. unfold JsMap.keys at 2.
  now rewrite JsMapFacts.entries_map_Some.
Qed.

Lemma step_filtered {E : Env} (st : state E) :
  state_filtered st -> outcome_filtered (step st).
Proof.
  unfold outcome_filtered, state_filtered, step. intros [Hk Ht].
  destruct (iter st) as [idx|].
  - destruct (JsMap.next (queue st) idx) as [[idx' [m fp]]|] eqn:Hnext;
      [|simpl; auto].
    destruct (next_entry _ _ _ _ Hnext) as [_ Hhas]. simpl in Hhas.
    apply JsMapFacts.has_true_iff in Hhas.
    assert (Hinc : INCLUDE_PATTERN_test m = true)
      by (rewrite Forall_forall in Hk; auto).
    assert (Hdel : Forall (fun name => INCLUDE_PATTERN_test name = true)
                          (JsMap.keys (JsMap.delete m (queue st))))
      by (eapply Forall_incl; [apply keys_delete_incl | exact Hk]).
    destruct (process_processed
                (mkState (queue st) (Some idx') (fs st) (trace st) (passes st)) m fp)
      as [e evs _ _ Hf|fs' evs _ Hf _|fs' evs children _ Hf Hscan];
      cbn [state_of queue iter fs trace passes]; specialize (Hf Hinc).
    + destruct Hf as [Hevs He]. repeat split; auto. apply Forall_app; auto.
    + repeat split; auto.
      repeat (apply Forall_app; split; auto). repeat constructor.
    + destruct (enqueue_children_spec (JsMap.delete m (queue st)) children)
        as (added & -> & Hincl & _).
      apply scan_Some in Hscan. destruct Hscan as (deps & _ & ->).
      repeat split; auto.
      * rewrite keys_enqueue. apply Forall_app. split; auto.
        eapply Forall_incl; [|apply (scan_deps_keys deps)].
        unfold JsMap.keys. now apply incl_map.
      * repeat (apply Forall_app; split; auto). repeat constructor.
  - destruct (Nat.eqb (JsMap.size (queue st)) 0); simpl; auto.
    repeat split; auto. apply Forall_app. split; auto.
    constructor; [simpl; auto | constructor].
Qed.

Lemma run_filtered (E : Env) (fuel : nat) : outcome_filtered (run E fuel).
Proof.
  apply run_invariant.
  - unfold start, outcome_filtered, state_filtered.
    destruct (scan E (fs_init E) (EXE_PATH E)) as [q|] eqn:Hscan; simpl.
    + apply scan_Some in Hscan. destruct Hscan as (deps & _ & ->).
      repeat split; auto using scan_deps_keys. repeat constructor.
    + repeat split; repeat constructor.
  - intros st [H _]. now apply step_filtered.
Qed.

(** *** Only entries of the closure *)

Lemma step_in_closure {E : Env} (st : state E) :
  Forall (in_closure E) (JsMap.entries (queue st)) ->
  Forall (in_closure E) (JsMap.entries (queue (state_of (step st)))).
Proof.
  unfold step. intros Hc.
  destruct (iter st) as [idx|].
  - destruct (JsMap.next (queue st) idx) as [[idx' [m fp]]|] eqn:Hnext;
      [|simpl; auto].
    destruct (next_entry _ _ _ _ Hnext) as [Hin _].
    assert (Hm : in_closure E (m, fp)) by (rewrite Forall_forall in Hc; auto).
    assert (Hdel : Forall (in_closure E)
                          (JsMap.entries (JsMap.delete m (queue st))))
      by (eapply Forall_incl; [apply entries_delete_incl | exact Hc]).
    destruct (process_processed
                (mkState (queue st) (Some idx') (fs st) (trace st) (passes st)) m fp)
      as [e evs _ _ _|fs' evs _ _ _|fs' evs children _ _ Hscan];
      cbn [state_of queue iter fs trace passes]; auto.
    destruct (enqueue_children_spec (JsMap.delete m (queue st)) children)
      as (added & -> & Hincl & _).
    rewrite JsMapFacts.entries_app, JsMapFacts.entries_map_Some.
    apply Forall_app. split; auto.
    apply Forall_forall. intros c Hc'.
    apply (closure_child E fs' (m, fp) c Hm).
    unfold children_of. rewrite Hscan. auto.
  - destruct (Nat.eqb (JsMap.size (queue st)) 0); simpl; auto.
Qed.

Lemma start_in_closure (E : Env) :
  Forall (in_closure E) (JsMap.entries (queue (state_of (start E)))).
Proof.
  unfold start.
  destruct (scan E (fs_init E) (EXE_PATH E)) as [q|] eqn:Hscan; simpl.
  - apply Forall_forall. intros e He. apply closure_seed.
    unfold children_of. now rewrite Hscan.
  - constructor.
Qed.

Lemma run_in_closure (E : Env) (fuel : nat) :
  Forall (in_closure E) (JsMap.entries (queue (state_of (run E fuel)))).
Proof.
  apply (run_invariant
           (fun o => Forall (in_closure E) (JsMap.entries (queue (state_of o))))).
  - apply start_in_closure.
  - intros st H. now apply step_in_closure.
Qed.

(** ** The search of the directories *)

Lemma resolved_find_None (m : string) (files : list string) :
  ~ In m files -> resolved (find (fun f => String.eqb f m) files) = None.
Proof.
  intros H. now rewrite find_eqb_None.
Qed.

Lemma resolved_find_Some (m : string) (files : list string) :
  m <> "" -> In m files -> resolved (find (fun f => String.eqb f m) files) = Some m.
Proof.
  intros Hne H. rewrite find_eqb_In by assumption.
  unfold resolved, truthy.
  destruct (String.eqb_spec m ""); [contradiction | reflexivity].
Qed.

Lemma search_none (E : Env) (fs : FS E) (dirs : list string) (m : string) :
  Forall (lists_without E fs m) dirs ->
  search E fs dirs m = (map Readdir dirs, NoMatch).
Proof.
  induction 1 as [|d dirs (files & Hfiles & Hnot) _ IH]; simpl; auto.
  now rewrite Hfiles, resolved_find_None, IH.
Qed.

Lemma search_first (E : Env) (fs : FS E) (before after : list string)
    (d m : string) (files : list string) :
  m <> "" ->
  Forall (lists_without E fs m) before ->
  readdirSync E fs d = Some files ->
  In m files ->
  search E fs (before ++ d :: after) m = (map Readdir (before ++ [d]), Match m d).
Proof.
  intros Hne Hbefore Hfiles Hin.
  induction Hbefore as [|d' before (files' & Hfiles' & Hnot) _ IH]; simpl.
  - now rewrite Hfiles, resolved_find_Some.
  - now rewrite Hfiles', resolved_find_None, IH.
Qed.

Lemma new_events_app {E : Env} (st : state E) (o : outcome E) (evs : list event) :
  trace (state_of o) = trace st ++ evs -> new_events st o = evs.
Proof.
  unfold new_events. intros ->.
  rewrite skipn_app, skipn_all, Nat.sub_diag. reflexivity.
Qed.

Lemma included_nonempty (m : string) : INCLUDE_PATTERN_test m = true -> m <> "".
Proof. intros H ->. discriminate H. Qed.

(** * The properties of the specification *)

(** C7. Filter correctness.  The map that [scan] returns holds only module
    names that satisfy the inclusion pattern, and at every moment of every
    run the worklist holds only such names, every copy made so far is the
    copy of a file named by such a name into the directory of the
    executable, every line printed is the elapsed time or reports the copy
    of such a name, and an error thrown by the script itself names such a
    name. *)
Theorem only_filtered_names (E : Env) (fs : FS E) (targetPath : string) (fuel : nat) :
  match scan E fs targetPath with
  | Some result =>
      Forall (fun name => INCLUDE_PATTERN_test name = true) (JsMap.keys result)
  | None => True
  end /\
  outcome_filtered (run E fuel).
Proof.
  split; [|apply run_filtered].
  destruct (scan E fs targetPath) as [result|] eqn:Hscan; [|exact I].
  apply scan_Some in Hscan. destruct Hscan as (deps & _ & ->).
  apply scan_deps_keys.
Qed.

(** C3, as the script has it.  The loop iterates over the worklist itself,
    not over a snapshot: an entry added during a pass is visited in that
    same pass.  So at every moment of every run at most one pass has been
    begun, and while the script has not thrown, an exhausted iterator means
    an empty worklist. *)
Theorem pass_visits_live_queue (E : Env) (fuel : nat) : live_iteration (run E fuel).
Proof.
  unfold live_iteration.
  pose proof (run_drained E fuel) as H.
  destruct (run E fuel) as [st|st|e st]; simpl in *; [| |auto].
  - split; [now apply drained_passes|].
    unfold drained in H. destruct (iter st) as [idx|].
    + destruct H as (_ & _ & Hpre). intros Hnext.
      now apply (JsMapFacts.next_None _ idx).
    + destruct H as [H|[_ H]]; [lia | auto].
  - split; [now apply drained_passes|].
    unfold drained in H. destruct (iter st) as [idx|].
    + destruct H as (_ & _ & Hpre). intros Hnext.
      now apply (JsMapFacts.next_None _ idx).
    + destruct H as [H|[_ H]]; [lia | auto].
Qed.

(** C2, as the script has it.  Dependencies is invoked once for the
    executable and once for every entry removed from the worklist: at every
    moment of every run the number of invocations is one more than the
    number of entries removed so far.  The worklist never holds two entries
    for one name, so a name discovered again while it waits is scanned once
    for both discoveries. *)
Theorem one_scan_per_removed_entry (E : Env) (fuel : nat) :
  scans_match_removals (state_of (run E fuel)).
Proof. apply run_scans. Qed.

(** C1, as the script has it.  When the body has processed the entry
    [(m, fp)] and the script goes on, the worklist is the previous one
    without that entry, followed by new entries for the children whose names
    were not in it: a child whose name is in the worklist gets no second
    entry and its entry is not changed, and every child is in the worklist
    afterwards, whether or not its name was there earlier in the run. *)
Theorem children_join_current_worklist (E : Env) (st st' : state E)
    (idx idx' : nat) (m : string) (fp : FilePath) :
  iter st = Some idx ->
  JsMap.next (queue st) idx = Some (idx', (m, fp)) ->
  step st = Running st' ->
  exists children added,
    scan E (fs st') (populate_path E (m, fp)) = Some children /\
    queue st' = JsMap.delete m (queue st) ++ map Some added /\
    incl added (JsMap.entries children) /\
    NoDup (map fst added) /\
    Forall (fun e => JsMap.has (fst e) (JsMap.delete m (queue st)) = false) added /\
    Forall (fun e => JsMap.has (fst e) (queue st') = true) (JsMap.entries children).
Proof.
  unfold step. intros -> -> Hstep.
  destruct (process_processed
              (mkState (queue st) (Some idx') (fs st) (trace st) (passes st)) m fp)
    as [e evs _ _ _|fs' evs _ _ _|fs' evs children _ _ Hscan];
    try discriminate.
  inversion Hstep; subst st'; cbn [queue iter fs trace passes] in *.
  destruct (enqueue_children_spec (JsMap.delete m (queue st)) children)
    as (added & Heq & Hincl & Hnd & Hfresh & Hall).
  exists children, added. rewrite <- Heq. auto 10.
Qed.

Lemma children_join_current_worklist_witness :
  exists children added,
    scan cyclic_env [] "C:/vtk/vtkB.dll" = Some children /\
    [None; None; Some ("vtkA.dll", Some "C:/vtk/vtkA.dll")]
    = [None; None] ++ map Some added /\
    incl added (JsMap.entries children) /\
    NoDup (map fst added) /\
    Forall (fun e => JsMap.has (fst e) [None; None] = false) added /\
    Forall (fun e => JsMap.has (fst e)
                       [None; None; Some ("vtkA.dll", Some "C:/vtk/vtkA.dll")] = true)
           (JsMap.entries children).
Proof.
  exact (children_join_current_worklist cyclic_env
           (state_of (run cyclic_env 2)) (state_of (run cyclic_env 3))
           1 2 "vtkB.dll" (Some "C:/vtk/vtkB.dll") eq_refl eq_refl eq_refl).
Defined.

(** C9, as the script has it.  The test [if (filePath)] is a test of
    truthiness: a path that is [null] or empty is falsy, any other path is
    truthy.  When the iterator yields an entry whose path is truthy, the body
    leaves the file system as it is and its only action on the outside
    world is the scan of that path: no directory is read, nothing is copied
    and nothing is printed.  Conversely, a step of the script that copies a
    file is the processing of an entry whose path is falsy. *)
Theorem resolved_entry_writes_nothing (E : Env) (st : state E) :
  (forall idx idx' m fp,
     iter st = Some idx ->
     JsMap.next (queue st) idx = Some (idx', (m, fp)) ->
     truthy fp = true ->
     fs (state_of (step st)) = fs st /\
     exists p, fp = Some p /\ new_events st (step st) = [Exec p]) /\
  (Exists (fun ev => is_copy ev = true) (new_events st (step st)) ->
   exists idx idx' m fp,
     iter st = Some idx /\
     JsMap.next (queue st) idx = Some (idx', (m, fp)) /\
     truthy fp = false).
Proof.
  assert (Hres : forall idx idx' m fp,
             iter st = Some idx ->
             JsMap.next (queue st) idx = Some (idx', (m, fp)) ->
             truthy fp = true ->
             fs (state_of (step st)) = fs st /\
             exists p, fp = Some p /\ new_events st (step st) = [Exec p]).
  { intros idx idx' m fp Hiter Hnext Ht.
    destruct (truthy_resolved fp Ht) as (p & Hfp & Hr).
    unfold step. rewrite Hiter, Hnext. unfold process. rewrite Hr.
    unfold expand; cbn [queue iter fs trace passes].
    destruct (scan E (fs st) p); simpl; (split; [reflexivity|]);
      exists p; (split; [assumption|]); now apply new_events_app. }
  split; [exact Hres|].
  intros Hex.
  destruct (iter st) as [idx|] eqn:Hiter.
  - destruct (JsMap.next (queue st) idx) as [[idx' [m fp]]|] eqn:Hnext.
    + exists idx, idx', m, fp. repeat split; auto.
      destruct (truthy fp) eqn:Ht; [|reflexivity].
      destruct (Hres idx idx' m fp eq_refl Hnext Ht) as (_ & p & _ & Hev).
      rewrite Hev in Hex.
      inversion Hex as [? ? H|? ? H]; [discriminate H | inversion H].
    + exfalso. revert Hex. unfold step. rewrite Hiter, Hnext.
      rewrite (new_events_app st _ []) by (simpl; now rewrite app_nil_r).
      intros Hex. inversion Hex.
  - exfalso. revert Hex. unfold step. rewrite Hiter.
    destruct (Nat.eqb (JsMap.size (queue st)) 0).
    + rewrite (new_events_app st _ [ConsoleLog (cost_line E)]) by reflexivity.
      intros Hex. inversion Hex as [? ? H|? ? H]; [discriminate H | inversion H].
    + rewrite (new_events_app st _ []) by (simpl; now rewrite app_nil_r).
      intros Hex. inversion Hex.
Qed.

Lemma resolved_entry_writes_nothing_witness :
  fs (state_of (run deploy_env 2)) = fs (state_of (run deploy_env 1)) /\
  exists p, Some "C:/vtk/vtkA.dll" = Some p /\
            new_events (state_of (run deploy_env 1)) (run deploy_env 2) = [Exec p].
Proof.
  exact (proj1 (resolved_entry_writes_nothing deploy_env (state_of (run deploy_env 1)))
               0 1 "vtkA.dll" (Some "C:/vtk/vtkA.dll") eq_refl eq_refl eq_refl).
Defined.

(** C10. When the scan of the executable returns a map without entries, the
    body of the loop is never executed: after the first test of the [while]
    condition the script has finished, having invoked Dependencies once,
    read no directory, copied no file, left the file system as it was, and
    printed the elapsed time and nothing else. *)
Theorem no_dependency_no_pass (E : Env) (seed : JsMap.t) (fuel : nat) :
  scan E (fs_init E) (EXE_PATH E) = Some seed ->
  JsMap.size seed = 0 ->
  run E (S fuel) =
  Finished (mkState seed None (fs_init E)
                    [Exec (EXE_PATH E); ConsoleLog (cost_line E)] 0).
Proof.
  intros Hscan Hsize. unfold run, start. rewrite Hscan.
  cbn [run_from]. unfold step; cbn [queue iter fs trace passes].
  rewrite Hsize. reflexivity.
Qed.

Lemma no_dependency_no_pass_witness :
  run plain_env 3 =
  Finished (@mkState plain_env [] None []
                    [Exec "./QtVtk1.exe"; ConsoleLog "Cost time 2 sec"] 0).
Proof.
  exact (no_dependency_no_pass plain_env [] 2 eq_refl eq_refl).
Defined.

(** C5. When the iterator yields an entry whose path is falsy and every
    search directory is listed without a file named as the module, the
    script ends at once with the error "Can not find" followed by the module
    name, whatever fuel is left: the directories have been read and nothing
    else was done, so nothing was copied for the module; the worklist is
    what it was, with that entry and all later ones still in it; and the file
    system, with the copies made earlier, is what it was. *)
Theorem unresolved_dependency_halts (E : Env) (st : state E)
    (idx idx' : nat) (m : string) (fp : FilePath) (fuel : nat) :
  iter st = Some idx ->
  JsMap.next (queue st) idx = Some (idx', (m, fp)) ->
  truthy fp = false ->
  Forall (lists_without E (fs st) m) (SEARCH_DIRS E) ->
  run_from (S fuel) st =
  Threw (JsError ("Can not find " ++ m))
        (mkState (queue st) (Some idx') (fs st)
                 (trace st ++ map Readdir (SEARCH_DIRS E)) (passes st)).
Proof.
  intros Hiter Hnext Ht Hdirs.
  cbn [run_from]. unfold step. rewrite Hiter, Hnext.
  unfold process, resolved. rewrite Ht.
  cbn [queue iter fs trace passes].
  rewrite (search_none E (fs st) (SEARCH_DIRS E) m Hdirs).
  reflexivity.
Qed.

Lemma unresolved_dependency_halts_witness :
  run_from 5 (state_of (run missing_env 2)) =
  Threw (JsError "Can not find vtkC.dll")
        (@mkState missing_env
                 [None; Some ("vtkC.dll", None);
                  Some ("vtkA.dll", Some "C:/vtk/vtkA.dll")]
                 (Some 2)
                 [("D:/sdk/one/vtkB.dll", "vtkB.dll")]
                 [Exec "./QtVtk1.exe"; Readdir "D:/sdk/one";
                  ConsoleLog "Copying vtkB.dll...";
                  CopyFile "D:/sdk/one/vtkB.dll" "vtkB.dll";
                  Exec "vtkB.dll"; Readdir "D:/sdk/one"; Readdir "D:/sdk/two"]
                 1).
Proof.
  refine (unresolved_dependency_halts missing_env (state_of (run missing_env 2))
            1 2 "vtkC.dll" None 4 eq_refl eq_refl eq_refl _).
  repeat constructor.
  - exists ["vtkB.dll"]. split; [reflexivity|].
    simpl. intros [H|[]]. discriminate H.
  - exists ["vtkA.dll"]. split; [reflexivity|].
    simpl. intros [H|[]]. discriminate H.
Defined.

(** C6. Copy correctness.  In every run, when the iterator yields an entry
    whose path is falsy, and [d] is the first of the search directories, in
    the configured order, that lists a file named exactly as the module (the
    ones before it being listed without such a file), then the body reads
    the directories up to [d] and no later one, and copies the file of that
    name from [d] into the directory of the executable; no other file is
    copied in that step. *)
Theorem copy_from_first_match (E : Env) (fuel : nat) (st : state E)
    (idx idx' : nat) (m : string) (fp : FilePath)
    (before after : list string) (d : string) (files : list string) :
  run E fuel = Running st ->
  iter st = Some idx ->
  JsMap.next (queue st) idx = Some (idx', (m, fp)) ->
  truthy fp = false ->
  SEARCH_DIRS E = before ++ d :: after ->
  Forall (lists_without E (fs st) m) before ->
  readdirSync E (fs st) d = Some files ->
  In m files ->
  exists rest,
    new_events st (step st) =
      map Readdir (before ++ [d]) ++
      [ConsoleLog ("Copying " ++ m ++ "...");
       CopyFile (path_join E d m) (path_join E (EXE_DIR_PATH E) m)] ++ rest /\
    Forall (fun ev => is_readdir ev = false /\ is_copy ev = false) rest /\
    copyFileSync E (fs st) (path_join E d m) (path_join E (EXE_DIR_PATH E) m)
    = match step st with
      | Threw (FsError _) _ => None
      | o => Some (fs (state_of o))
      end.
Proof.
  intros Hrun Hiter Hnext Ht Hdirs Hbefore Hfiles Hin.
  assert (Hne : m <> "").
  { apply included_nonempty.
    destruct (run_filtered E fuel) as [[Hk _] _]. rewrite Hrun in Hk. simpl in Hk.
    destruct (next_entry _ _ _ _ Hnext) as [_ Hhas]. simpl in Hhas.
    apply JsMapFacts.has_true_iff in Hhas.
    rewrite Forall_forall in Hk. auto. }
  unfold step. rewrite Hiter, Hnext.
  unfold process, resolved. rewrite Ht.
  cbn [queue iter fs trace passes].
  rewrite Hdirs, (search_first E (fs st) before after d m files Hne Hbefore Hfiles Hin).
  destruct (copyFileSync E (fs st) (path_join E d m)
              (path_join E (EXE_DIR_PATH E) m)) as [fs'|].
  - unfold expand; cbn [queue iter fs trace passes].
    exists [Exec (path_join E (EXE_DIR_PATH E) m)].
    split; [|split].
    + destruct (scan E fs' (path_join E (EXE_DIR_PATH E) m));
        apply new_events_app; cbn [state_of trace];
        now rewrite <- !app_assoc.
    + repeat constructor.
    + destruct (scan E fs' (path_join E (EXE_DIR_PATH E) m)); reflexivity.
  - exists []. split; [|split].
    + apply new_events_app; cbn [state_of trace].
      now rewrite <- !app_assoc.
    + constructor.
    + reflexivity.
Qed.

Lemma copy_from_first_match_witness :
  exists rest,
    new_events (state_of (run deploy_env 2)) (run deploy_env 3) =
      map Readdir (["D:/sdk/one"] ++ ["D:/sdk/two"]) ++
      [ConsoleLog "Copying vtkB.dll...";
       CopyFile "D:/sdk/two/vtkB.dll" "vtkB.dll"] ++ rest /\
    Forall (fun ev => is_readdir ev = false /\ is_copy ev = false) rest /\
    Some [("D:/sdk/two/vtkB.dll", "vtkB.dll")] =
    Some (fs (state_of (run deploy_env 3))).
Proof.
  refine (copy_from_first_match deploy_env 2 (state_of (run deploy_env 2))
            1 2 "vtkB.dll" None ["D:/sdk/one"] ["D:/sdk/three"] "D:/sdk/two"
            ["vtkB.dll"] eq_refl eq_refl eq_refl eq_refl eq_refl _ eq_refl _).
  - repeat constructor. exists ["vtkA.dll"; "vtkb.dll"]. split; [reflexivity|].
    simpl. intros [H|[H|[]]]; discriminate H.
  - simpl. auto.
Defined.

(** ** Termination on acyclic dependencies *)

Lemma at_depth_app (depth : string -> nat) (k : nat) (a b : JsMap.t) :
  at_depth depth k (a ++ b) = at_depth depth k a + at_depth depth k b.
Proof.
  unfold at_depth. now rewrite JsMapFacts.entries_app, filter_app, length_app.
Qed.

Lemma at_depth_repeat_None (depth : string -> nat) (k n : nat) :
  at_depth depth k (repeat None n) = 0.
Proof.
  unfold at_depth. now rewrite JsMapFacts.entries_repeat_None.
Qed.

Lemma at_depth_cons (depth : string -> nat) (k : nat) (e : string * FilePath)
    (rest : JsMap.t) :
  at_depth depth k (Some e :: rest) =
  (if Nat.eqb (depth (fst e)) k then 1 else 0) + at_depth depth k rest.
Proof.
  unfold at_depth. simpl. destruct (Nat.eqb (depth (fst e)) k); reflexivity.
Qed.

Lemma at_depth_added (depth : string -> nat) (k : nat)
    (added : list (string * FilePath)) :
  Forall (fun c => depth (fst c) < k) added ->
  at_depth depth k (map Some added) = 0.
Proof.
  unfold at_depth. rewrite JsMapFacts.entries_map_Some.
  induction 1 as [|c added Hc _ IH]; simpl; auto.
  destruct (Nat.eqb_spec (depth (fst c)) k); [lia | exact IH].
Qed.

Section Termination.

Variable E : Env.
Variable depth : string -> nat.
Hypothesis depth_decreases : acyclic E depth.

Lemma step_in_pass (st st' : state E) (idx idx' : nat) (pair_ : string * FilePath) :
  in_pass st ->
  iter st = Some idx ->
  JsMap.next (queue st) idx = Some (idx', pair_) ->
  step st = Running st' ->
  in_pass st'.
Proof.
  intros (_ & Hd & Hc) Hiter Hnext Hstep.
  pose proof (step_drained st Hd) as Hd'.
  pose proof (step_in_closure st Hc) as Hc'.
  rewrite Hstep in Hd', Hc'. simpl in Hc'.
  repeat split; auto.
  revert Hstep. unfold step. rewrite Hiter, Hnext. destruct pair_ as [m fp].
  destruct (process_processed
              (mkState (queue st) (Some idx') (fs st) (trace st) (passes st)) m fp);
    intros Hstep; inversion Hstep; subst; simpl; eauto.
Qed.

(** Processing an entry of depth [depth m] removes one entry of that depth
    and adds entries of lower depths only. *)
Lemma step_at_depth (st : state E) (idx idx' : nat) (m : string) (fp : FilePath) :
  in_pass st ->
  iter st = Some idx ->
  JsMap.next (queue st) idx = Some (idx', (m, fp)) ->
  (forall k, depth m <= k ->
             at_depth depth k (queue (state_of (step st)))
             <= at_depth depth k (queue st)) /\
  (forall st', step st = Running st' ->
               at_depth depth (depth m) (queue st')
               < at_depth depth (depth m) (queue st)).
Proof.
  intros (_ & Hd & Hc) Hiter Hnext.
  unfold drained in Hd. rewrite Hiter in Hd. destruct Hd as (_ & _ & Hpre).
  destruct (delete_next _ _ _ _ _ Hpre Hnext) as (rest & Hq & Hdel & _).
  destruct (next_entry _ _ _ _ Hnext) as [Hin _].
  assert (Hm : in_closure E (m, fp)) by (rewrite Forall_forall in Hc; auto).
  assert (Hqd : forall k, at_depth depth k (queue st)
                          = (if Nat.eqb (depth m) k then 1 else 0)
                            + at_depth depth k rest).
  { intros k. rewrite Hq at 1.
    now rewrite at_depth_app, at_depth_repeat_None, at_depth_cons. }
  assert (Hdd : forall k, at_depth depth k (JsMap.delete m (queue st))
                          = at_depth depth k rest).
  { intros k. now rewrite Hdel, at_depth_app, at_depth_repeat_None. }
  unfold step. rewrite Hiter, Hnext.
  destruct (process_processed
              (mkState (queue st) (Some idx') (fs st) (trace st) (passes st)) m fp)
    as [e evs _ _ _|fs' evs _ _ _|fs' evs children _ _ Hscan];
    cbn [state_of queue iter fs trace passes].
  - split; [intros; lia | intros st' H; discriminate H].
  - split; [|intros st' H; discriminate H].
    intros k Hk. rewrite Hdd, Hqd. lia.
  - destruct (enqueue_children_spec (JsMap.delete m (queue st)) children)
      as (added & Heq & Hincl & _).
    assert (Hadded : forall k, depth m <= k -> at_depth depth k (map Some added) = 0).
    { intros k Hk. apply at_depth_added. apply Forall_forall. intros c Hcin.
      assert (Hlt : depth (fst c) < depth (fst (m, fp))).
      { apply (depth_decreases (m, fp) fs' c Hm).
        unfold children_of. rewrite Hscan. auto. }
      simpl in Hlt. lia. }
    split.
    + intros k Hk. rewrite Heq, at_depth_app, Hdd, Hqd, Hadded by assumption. lia.
    + intros st' H. inversion H; subst st'; cbn [queue].
      rewrite Heq, at_depth_app, Hdd, Hqd, Hadded by lia.
      rewrite Nat.eqb_refl. lia.
Qed.

Lemma reaches_0 (st : state E) : in_pass st -> reaches depth 0 st.
Proof.
  intros Hin. pose proof Hin as ([idx Hiter] & Hd & Hc).
  destruct (JsMap.next (queue st) idx) as [[idx' [m fp]]|] eqn:Hnext.
  - exists 0. simpl. split; [auto|].
    right. exists st, idx, idx', m, fp.
    split; [reflexivity|]. split; [assumption|]. split; [assumption|].
    split; [assumption | lia].
  - exists 2.
    assert (Hsize : JsMap.size (queue st) = 0).
    { unfold drained in Hd. rewrite Hiter in Hd. destruct Hd as (_ & _ & Hpre).
      now apply (JsMapFacts.next_None _ idx). }
    assert (Hrun : run_from 2 st
                   = Finished (mkState (queue st) None (fs st)
                                       (trace st ++ [ConsoleLog (cost_line E)])
                                       (passes st))).
    { assert (Hstep : step st = Running (mkState (queue st) None (fs st)
                                                 (trace st) (passes st)))
        by (unfold step; now rewrite Hiter, Hnext).
      cbn [run_from]. rewrite Hstep.
      unfold step; cbn [queue iter fs trace passes]. now rewrite Hsize. }
    rewrite Hrun. simpl. auto.
Qed.

Lemma reaches_S (D : nat) :
  (forall st : state E, in_pass st -> reaches depth D st) ->
  forall n (st : state E),
    at_depth depth D (queue st) < n -> in_pass st -> reaches depth (S D) st.
Proof.
  intros HD n. induction n as [|n IH]; intros st Hn Hin; [lia|].
  destruct (HD st Hin) as (fuel1 & Hle1 & Hend).
  destruct Hend as [Hend|(st1 & idx & idx' & m & fp & Hrun1 & Hin1 & Hiter1 & Hnext1 & HDm)].
  - exists fuel1. split; [intros k Hk; apply Hle1; lia | now left].
  - rewrite Hrun1 in Hle1. simpl in Hle1.
    destruct (Nat.eq_dec (depth m) D) as [Heq|Hneq].
    + destruct (step_at_depth st1 idx idx' m fp Hin1 Hiter1 Hnext1) as [Hle2 Hlt2].
      destruct (step st1) as [st2|st2|e st2] eqn:Hstep.
      * assert (Hin2 : in_pass st2)
          by (eapply step_in_pass; eauto).
        specialize (Hlt2 st2 eq_refl). simpl in Hle2.
        assert (Hn2 : at_depth depth D (queue st2) < n).
        { specialize (Hle1 D (le_n D)). rewrite Heq in Hlt2. lia. }
        destruct (IH st2 Hn2 Hin2) as (fuel3 & Hle3 & Hend3).
        exists (fuel1 + S fuel3).
        rewrite run_from_add, Hrun1. cbn [run_from]. rewrite Hstep.
        split; [|exact Hend3].
        intros k Hk. specialize (Hle3 k Hk).
        specialize (Hle2 k ltac:(lia)). specialize (Hle1 k ltac:(lia)). lia.
      * exists (fuel1 + 1).
        rewrite run_from_add, Hrun1. cbn [run_from]. rewrite Hstep.
        split; [|left; exact I].
        intros k Hk. simpl in *.
        specialize (Hle2 k ltac:(lia)). specialize (Hle1 k ltac:(lia)). lia.
      * exists (fuel1 + 1).
        rewrite run_from_add, Hrun1. cbn [run_from]. rewrite Hstep.
        split; [|left; exact I].
        intros k Hk. simpl in *.
        specialize (Hle2 k ltac:(lia)). specialize (Hle1 k ltac:(lia)). lia.
    + exists fuel1. rewrite Hrun1. simpl.
      split; [intros k Hk; apply Hle1; lia|].
      right. exists st1, idx, idx', m, fp.
      split; [reflexivity|]. split; [assumption|]. split; [assumption|].
      split; [assumption | lia].
Qed.

Lemma reaches_any (D : nat) (st : state E) : in_pass st -> reaches depth D st.
Proof.
  revert st. induction D as [|D IH]; intros st Hin.
  - now apply reaches_0.
  - apply (reaches_S D IH (S (at_depth depth D (queue st)))); auto.
Qed.

End Termination.

Lemma run_finished_empty (E : Env) (fuel : nat) :
  match run E fuel with
  | Finished st => JsMap.size (queue st) = 0
  | _ => True
  end.
Proof.
  apply (run_invariant
           (fun o => match o with
                     | Finished st => JsMap.size (queue st) = 0
                     | _ => True
                     end)).
  - unfold start. now destruct (scan E (fs_init E) (EXE_PATH E)).
  - intros st _. unfold step.
    destruct (iter st) as [idx|].
    + destruct (JsMap.next (queue st) idx) as [[idx' [m fp]]|]; [|exact I].
      now destruct (process_processed
                      (mkState (queue st) (Some idx') (fs st) (trace st) (passes st))
                      m fp).
    + destruct (Nat.eqb_spec (JsMap.size (queue st)) 0); simpl; auto.
Qed.

(** C4, as the script has it.  When the filtered dependencies are acyclic,
    that is, when the module names can be given depth levels below [levels]
    such that every filtered dependency of a module of the closure lies at a
    strictly lower level than the module, the run ends: with enough fuel the
    script has finished with an empty worklist, or has thrown.  It has then
    made at most one pass, which is also at most one pass per depth level. *)
Theorem acyclic_resolution_ends (E : Env) (depth : string -> nat) (levels : nat) :
  acyclic E depth ->
  (forall e, in_closure E e -> depth (fst e) < levels) ->
  exists fuel,
    ended (run E fuel) /\
    passes (state_of (run E fuel)) <= 1 /\
    passes (state_of (run E fuel)) <= levels /\
    match run E fuel with
    | Finished st => JsMap.size (queue st) = 0
    | _ => True
    end.
Proof.
  intros Hacyclic Hlevels.
  assert (Hpass : forall fuel, passes (state_of (run E fuel)) <= 1).
  { intros fuel. pose proof (run_drained E fuel) as H.
    destruct (run E fuel); simpl; auto using drained_passes. }
  pose proof (start_in_closure E) as Hclosed.
  unfold run in *. unfold start in *.
  destruct (scan E (fs_init E) (EXE_PATH E)) as [q|] eqn:Hscan.
  - simpl in Hclosed.
    set (st0 := mkState q None (fs_init E) [Exec (EXE_PATH E)] 0) in *.
    destruct (Nat.eqb_spec (JsMap.size q) 0) as [Hz|Hnz].
    + exists 1. cbn [run_from]. unfold step; cbn [st0 queue iter fs trace passes].
      rewrite (proj2 (Nat.eqb_eq _ _) Hz). simpl. repeat split; auto; lia.
    + set (st1 := mkState q (Some 0) (fs_init E) [Exec (EXE_PATH E)] 1).
      assert (Hstep : step st0 = Running st1).
      { unfold step; cbn [st0 queue iter fs trace passes].
        now rewrite (proj2 (Nat.eqb_neq _ _) Hnz). }
      assert (Hin : in_pass st1).
      { split; [exists 0; reflexivity|]. split; [|exact Hclosed].
        unfold drained; simpl. repeat split; lia. }
      assert (Hlev : 1 <= levels).
      { unfold JsMap.size in Hnz.
        destruct (JsMap.entries q) as [|e l]; [contradiction|].
        inversion Hclosed as [|? ? He _]; subst.
        specialize (Hlevels e He). lia. }
      destruct (reaches_any E depth Hacyclic levels st1 Hin) as (fuel & _ & Hend).
      exists (S fuel).
      pose proof (run_finished_empty E (S fuel)) as Hfin.
      specialize (Hpass (S fuel)).
      unfold run, start in Hfin. rewrite Hscan in Hfin. fold st0 in Hfin.
      cbn [run_from] in *. rewrite Hstep in *.
      destruct Hend as [Hend|(st' & idx & idx' & m & fp & _ & Hin' & _ & Hnext & Hle)].
      * repeat split; auto. lia.
      * exfalso. destruct Hin' as (_ & _ & Hc').
        destruct (next_entry _ _ _ _ Hnext) as [Hentry _].
        rewrite Forall_forall in Hc'.
        specialize (Hlevels (m, fp) (Hc' _ Hentry)). simpl in Hlevels. lia.
  - exists 0. simpl. repeat split; auto; lia.
Qed.

(** ** The closures of the sample environments *)

Ltac closure_cases :=
  induction 1 as [e H|fs e c _ IH H];
  [ vm_compute in H
  | simpl in IH;
    repeat (destruct IH as [IH|IH]); try contradiction; subst e;
    vm_compute in H ];
  repeat (destruct H as [H|H]); try contradiction; subst; simpl; auto 10.

Lemma chain_closure (e : string * FilePath) :
  in_closure chain_env e ->
  In e [("vtkA.dll", Some "C:/vtk/vtkA.dll"); ("vtkB.dll", Some "C:/vtk/vtkB.dll")].
Proof. closure_cases. Qed.

Lemma cyclic_closure (e : string * FilePath) :
  in_closure cyclic_env e ->
  In e [("vtkA.dll", Some "C:/vtk/vtkA.dll"); ("vtkB.dll", Some "C:/vtk/vtkB.dll")].
Proof. closure_cases. Qed.

Lemma shared_closure (e : string * FilePath) :
  in_closure shared_env e ->
  In e [("vtkA.dll", Some "C:/vtk/vtkA.dll"); ("vtkC.dll", Some "C:/vtk/vtkC.dll");
        ("vtkD.dll", Some "C:/vtk/vtkD.dll")].
Proof. closure_cases. Qed.

Lemma chain_acyclic : acyclic chain_env chain_depth.
Proof.
  intros e fs c He Hc. apply chain_closure in He. simpl in He.
  repeat (destruct He as [He|He]); try contradiction; subst e;
    vm_compute in Hc;
    repeat (destruct Hc as [Hc|Hc]); try contradiction; subst c.
  vm_compute. lia.
Qed.

Lemma chain_levels (e : string * FilePath) :
  in_closure chain_env e -> chain_depth (fst e) < 2.
Proof.
  intros He. apply chain_closure in He. simpl in He.
  repeat (destruct He as [He|He]); try contradiction; subst e; vm_compute; lia.
Qed.

Lemma acyclic_resolution_ends_witness :
  exists fuel,
    ended (run chain_env fuel) /\
    passes (state_of (run chain_env fuel)) <= 1 /\
    passes (state_of (run chain_env fuel)) <= 2 /\
    match run chain_env fuel with
    | Finished st => JsMap.size (queue st) = 0
    | _ => True
    end.
Proof.
  exact (acyclic_resolution_ends chain_env chain_depth 2 chain_acyclic chain_levels).
Defined.

(** ** Where the script departs from the specification *)

(** C1 fails: in [shared_env] vtkD is in the worklist after vtkA has been
    processed, has left it once it has been processed itself, and is back in
    it after vtkC has been processed. *)
Lemma reintroduction_in_shared_env : ~ no_reintroduction shared_env.
Proof.
  intros H.
  assert (H2 : JsMap.has "vtkD.dll" (queue (state_of (run shared_env 2))) = true)
    by (vm_compute; reflexivity).
  assert (H3 : JsMap.has "vtkD.dll" (queue (state_of (run shared_env 3))) = false)
    by (vm_compute; reflexivity).
  specialize (H 2 3 4 "vtkD.dll" ltac:(lia) ltac:(lia) H2 H3).
  vm_compute in H. discriminate H.
Qed.

Lemma shared_closure_names :
  closure_names shared_env ["vtkA.dll"; "vtkC.dll"; "vtkD.dll"].
Proof.
  assert (HA : in_closure shared_env ("vtkA.dll", Some "C:/vtk/vtkA.dll"))
    by (apply closure_seed; vm_compute; auto).
  assert (HC : in_closure shared_env ("vtkC.dll", Some "C:/vtk/vtkC.dll"))
    by (apply (closure_child shared_env [] _ _ HA); vm_compute; auto).
  assert (HD : in_closure shared_env ("vtkD.dll", Some "C:/vtk/vtkD.dll"))
    by (apply (closure_child shared_env [] _ _ HA); vm_compute; auto).
  split.
  - repeat constructor; simpl; intuition discriminate.
  - intros m. split.
    + simpl. intros [<-|[<-|[<-|[]]]]; eauto.
    + intros [fp H]. apply shared_closure in H. simpl in H.
      repeat (destruct H as [H|H]); try contradiction;
        inversion H; subst; simpl; auto.
Qed.

(** C2 fails: vtkA and vtkC both depend on vtkD.  The closure of
    [shared_env] has three module names, and the run invokes Dependencies
    five times: once for the executable, once for vtkA and for vtkC, and
    twice for vtkD, which had left the worklist when vtkC was scanned. *)
Lemma five_scans_for_three_names : ~ one_scan_per_name shared_env.
Proof.
  intros H.
  assert (Hrun : run shared_env 7 = Finished (state_of (run shared_env 7)))
    by (vm_compute; reflexivity).
  specialize (H ["vtkA.dll"; "vtkC.dll"; "vtkD.dll"] 7
                (state_of (run shared_env 7)) shared_closure_names Hrun).
  vm_compute in H. discriminate H.
Qed.

(** C3 fails: in [chain_env] the pass begins with vtkA alone in the queue;
    vtkB is added while vtkA is processed and is the next entry that the
    same iterator yields. *)
Lemma added_entry_visited_in_same_pass : ~ snapshot_per_pass chain_env.
Proof.
  intros H.
  assert (Hrun0 : run chain_env 0 = Running (state_of (run chain_env 0)))
    by (vm_compute; reflexivity).
  assert (Hrun2 : run_from 2 (state_of (run chain_env 0))
                  = Running (state_of (run chain_env 2)))
    by (vm_compute; reflexivity).
  assert (Hnext : JsMap.next (queue (state_of (run chain_env 2))) 1
                  = Some (2, ("vtkB.dll", Some "C:/vtk/vtkB.dll")))
    by (vm_compute; reflexivity).
  specialize (H 0 2 (state_of (run chain_env 0)) (state_of (run chain_env 2))
                1 2 ("vtkB.dll", Some "C:/vtk/vtkB.dll")
                Hrun0 eq_refl Hrun2 eq_refl eq_refl Hnext).
  vm_compute in H. lia.
Qed.

Lemma next_at (k : nat) (e : string * FilePath) (rest : JsMap.t) :
  JsMap.next (repeat None k ++ Some e :: rest) k = Some (S k, e).
Proof.
  unfold JsMap.next.
  rewrite skipn_app, repeat_length, Nat.sub_diag, skipn_all2
    by (rewrite repeat_length; lia).
  reflexivity.
Qed.

Lemma has_repeat_None (name : string) (k : nat) :
  JsMap.has name (repeat None k) = false.
Proof. induction k; simpl; auto. Qed.

Lemma enqueue_only_child (k : nat) (c : string * FilePath) :
  enqueue_children (repeat None k ++ []) [Some c] = repeat None k ++ [Some c].
Proof.
  unfold enqueue_children. cbn [JsMap.entries fold_left].
  destruct c as [name path]. rewrite enqueue_child_spec.
  now rewrite app_nil_r, has_repeat_None.
Qed.

Lemma cyclic_scan_A (fs : FS cyclic_env) :
  scan cyclic_env fs "C:/vtk/vtkA.dll"
  = Some [Some ("vtkB.dll", Some "C:/vtk/vtkB.dll")].
Proof. reflexivity. Qed.

Lemma cyclic_scan_B (fs : FS cyclic_env) :
  scan cyclic_env fs "C:/vtk/vtkB.dll"
  = Some [Some ("vtkA.dll", Some "C:/vtk/vtkA.dll")].
Proof. reflexivity. Qed.

Lemma cycling_step (st : state cyclic_env) :
  cycling st -> exists st', step st = Running st' /\ cycling st'.
Proof.
  intros (k & name & Hiter & Hq & Hname).
  unfold step. rewrite Hiter, Hq, next_at. unfold process.
  destruct Hname; subst name.
  - change (resolved (Some ("C:/vtk/" ++ "vtkA.dll")%string))
      with (Some "C:/vtk/vtkA.dll").
    unfold expand; cbn [queue iter fs trace passes].
    rewrite cyclic_scan_A, JsMapFacts.delete_at, enqueue_only_child.
    eexists. split; [reflexivity|].
    exists (S k), "vtkB.dll". cbn [queue iter]. auto.
  - change (resolved (Some ("C:/vtk/" ++ "vtkB.dll")%string))
      with (Some "C:/vtk/vtkB.dll").
    unfold expand; cbn [queue iter fs trace passes].
    rewrite cyclic_scan_B, JsMapFacts.delete_at, enqueue_only_child.
    eexists. split; [reflexivity|].
    exists (S k), "vtkA.dll". cbn [queue iter]. auto.
Qed.

Lemma cycling_run_from (fuel : nat) (st : state cyclic_env) :
  cycling st -> exists st', run_from fuel st = Running st' /\ cycling st'.
Proof.
  revert st. induction fuel as [|fuel IH]; intros st Hc; simpl; eauto.
  destruct (cycling_step st Hc) as (st1 & -> & Hc1). auto.
Qed.

Lemma cyclic_run_goes_on (fuel : nat) : exists st, run cyclic_env fuel = Running st.
Proof.
  destruct fuel as [|fuel].
  - eexists. reflexivity.
  - assert (Hc : cycling (state_of (run cyclic_env 1))).
    { exists 0, "vtkA.dll". repeat split; auto. }
    destruct (cycling_run_from fuel _ Hc) as (st' & Hrun & _).
    exists st'. rewrite <- Hrun. reflexivity.
Qed.

(** C4 fails: the closure of [cyclic_env] has the two names vtkA and vtkB,
    each a dependency of the other, and the run never ends: whatever the
    fuel, the script is still running. *)
Lemma cyclic_dependencies_never_end : ~ terminates_when_finite cyclic_env.
Proof.
  intros H.
  destruct H as (fuel & st & Hrun).
  - exists ["vtkA.dll"; "vtkB.dll"]. intros e He.
    apply cyclic_closure in He. simpl in He.
    destruct He as [<-|[<-|[]]]; simpl; auto.
  - destruct (cyclic_run_goes_on fuel) as [st' Hrun'].
    rewrite Hrun in Hrun'. discriminate Hrun'.
Qed.

(** C9 fails for a path that is not [null] but empty: in [empty_path_env]
    the entry of vtkB has the path [Some ""], and processing it reads the
    search directory and copies vtkB into the directory of the executable. *)
Lemma empty_path_is_searched_and_copied : ~ non_null_path_writes_nothing empty_path_env.
Proof.
  intros H.
  assert (Hrun : run empty_path_env 1 = Running (state_of (run empty_path_env 1)))
    by (vm_compute; reflexivity).
  destruct (H 1 (state_of (run empty_path_env 1)) 0 1 "vtkB.dll" ""
              Hrun eq_refl eq_refl) as [Hfs _].
  vm_compute in Hfs. discriminate Hfs.
Qed.

(** * Further properties of the script *)

(** ** The adapter *)

Lemma included_names_cons (d : Dep) (deps : list Dep) :
  included_names (d :: deps) =
  if INCLUDE_PATTERN_test (ModuleName d)
  then ModuleName d :: included_names deps
  else included_names deps.
Proof. reflexivity. Qed.

Lemma scan_fold_keys_order (deps : list Dep) (acc : JsMap.t) :
  JsMap.keys (fold_left scan_dep deps acc) =
  JsMap.keys acc ++ first_occurrences (JsMap.keys acc) (included_names deps).
Proof.
  revert acc. induction deps as [|d deps IH]; intros acc.
  - simpl. now rewrite app_nil_r.
  - cbn [fold_left]. rewrite IH, included_names_cons. unfold scan_dep.
    destruct (INCLUDE_PATTERN_test (ModuleName d)); [|reflexivity].
    rewrite JsMapFacts.keys_set. cbn [first_occurrences].
    destruct (JsMap.has (ModuleName d) acc) eqn:Hhas.
    + apply JsMapFacts.has_true_iff in Hhas.
      destruct (in_dec string_dec (ModuleName d) (JsMap.keys acc));
        [reflexivity | contradiction].
    + apply JsMapFacts.has_false_iff in Hhas.
      destruct (in_dec string_dec (ModuleName d) (JsMap.keys acc));
        [contradiction|].
      now rewrite <- app_assoc.
Qed.

Lemma first_occurrences_nil (names : list string) :
  first_occurrences [] names = [] -> names = [].
Proof. destruct names; [reflexivity | discriminate]. Qed.

Lemma included_names_nil (deps : list Dep) :
  included_names deps = [] <->
  Forall (fun d => INCLUDE_PATTERN_test (ModuleName d) = false) deps.
Proof.
  induction deps as [|d deps IH]; [split; auto|].
  rewrite included_names_cons.
  destruct (INCLUDE_PATTERN_test (ModuleName d)) eqn:Hinc; split; intros H.
  - discriminate H.
  - inversion H; congruence.
  - constructor; [assumption | now apply IH].
  - inversion H; subst. now apply IH.
Qed.

(** X1. The map that [scan] returns lists the module names that pass the
    filter in the order of their first report, each once, and it has no
    empty slot: an iteration over it meets the names in that order. *)
Theorem scan_keeps_first_report_order (E : Env) (fs : FS E) (targetPath : string)
    (deps : list Dep) :
  dependencies E fs targetPath = Some deps ->
  exists result,
    scan E fs targetPath = Some result /\
    JsMap.keys result = first_occurrences [] (included_names deps) /\
    result = map Some (JsMap.entries result).
Proof.
  intros Hdeps. exists (scan_deps deps).
  split; [unfold scan; now rewrite Hdeps|].
  split; [apply (scan_fold_keys_order deps JsMap.empty) | apply scan_deps_no_hole].
Qed.

Lemma scan_keeps_first_report_order_witness :
  exists result,
    scan twice_env (fs_init twice_env) "./QtVtk1.exe" = Some result /\
    JsMap.keys result = ["vtkA.dll"; "vtkC.dll"] /\
    result = map Some (JsMap.entries result).
Proof.
  exact (scan_keeps_first_report_order twice_env (fs_init twice_env) "./QtVtk1.exe"
           [present "vtkA.dll"; present "vtkC.dll"; absent "vtkA.dll"] eq_refl).
Defined.

(** X2. The map that [scan] returns is empty exactly when no reported
    module name passes the filter. *)
Theorem scan_empty_iff_nothing_included (E : Env) (fs : FS E) (targetPath : string)
    (deps : list Dep) :
  dependencies E fs targetPath = Some deps ->
  exists result,
    scan E fs targetPath = Some result /\
    (JsMap.size result = 0 <->
     Forall (fun d => INCLUDE_PATTERN_test (ModuleName d) = false) deps).
Proof.
  intros Hdeps. exists (scan_deps deps).
  split; [unfold scan; now rewrite Hdeps|].
  rewrite <- included_names_nil.
  assert (Hsize : JsMap.size (scan_deps deps)
                  = List.length (first_occurrences [] (included_names deps))).
  { pose proof (scan_fold_keys_order deps JsMap.empty) as Hk.
    change (JsMap.keys (scan_deps deps)
            = first_occurrences [] (included_names deps)) in Hk.
    rewrite <- Hk. unfold JsMap.size, JsMap.keys. now rewrite length_map. }
  rewrite Hsize. split; intros H.
  - apply first_occurrences_nil. now apply length_zero_iff_nil.
  - now rewrite H.
Qed.

Lemma scan_empty_iff_nothing_included_witness :
  exists result,
    scan plain_env (fs_init plain_env) "./QtVtk1.exe" = Some result /\
    (JsMap.size result = 0 <->
     Forall (fun d => INCLUDE_PATTERN_test (ModuleName d) = false)
            [present "Qt5Core.dll"; present "KERNEL32.dll"]).
Proof.
  exact (scan_empty_iff_nothing_included plain_env (fs_init plain_env) "./QtVtk1.exe"
           [present "Qt5Core.dll"; present "KERNEL32.dll"] eq_refl).
Defined.

(** ** The loop body, case by case *)

Lemma search_cases (E : Env) (fs : FS E) (dirs : list string) (m : string) :
  (Forall (no_match E fs m) dirs /\
   search E fs dirs m = (map Readdir dirs, NoMatch)) \/
  (exists before d after,
     dirs = before ++ d :: after /\
     Forall (no_match E fs m) before /\
     readdirSync E fs d = None /\
     search E fs dirs m = (map Readdir (before ++ [d]), ReaddirThrew d)) \/
  (exists before d after files,
     dirs = before ++ d :: after /\
     Forall (no_match E fs m) before /\
     readdirSync E fs d = Some files /\ In m files /\ m <> "" /\
     search E fs dirs m = (map Readdir (before ++ [d]), Match m d)).
Proof.
  induction dirs as [|d dirs IH]; cbn [search].
  - left. split; [constructor | reflexivity].
  - destruct (readdirSync E fs d) as [files|] eqn:Hfiles.
    + destruct (resolved (find (fun f => String.eqb f m) files)) as [f|] eqn:Hres.
      * right. right. exists [], d, dirs, files.
        apply resolved_Some in Hres. destruct Hres as [Hfind Hne].
        apply find_eqb_Some in Hfind. destruct Hfind as [-> Hin].
        repeat split; auto.
      * assert (Hd : no_match E fs m d) by (exists files; auto).
        destruct IH as [[Hall Hs]|[(before & d' & after & Hdirs & Hall & Hnone & Hs)
                                  |(before & d' & after & files' & Hdirs & Hall
                                    & Hsome & Hin & Hne & Hs)]];
          rewrite Hs.
        -- left. split; [constructor; assumption | reflexivity].
        -- right. left. exists (d :: before), d', after.
           rewrite Hdirs. repeat split; auto.
        -- right. right. exists (d :: before), d', after, files'.
           rewrite Hdirs. repeat split; auto.
    + right. left. exists [], d, dirs. repeat split; auto.
Qed.

Lemma process_handled {E : Env} (st : state E) (m : string) (fp : FilePath) :
  handled st m fp (process st (m, fp)).
Proof.
  unfold process.
  destruct (resolved fp) as [p|] eqn:Hres; [now apply handled_resolved|].
  destruct (search_cases E (fs st) (SEARCH_DIRS E) m)
    as [[Hall Hs]|[(before & d & after & Hdirs & Hall & Hnone & Hs)
                  |(before & d & after & files & Hdirs & Hall
                    & Hsome & Hin & Hne & Hs)]];
    rewrite Hs.
  - now apply handled_no_match.
  - now apply (handled_unlisted st m fp before d after).
  - assert (Htr : (trace st ++ map Readdir (before ++ [d])) ++
                  [ConsoleLog ("Copying " ++ m ++ "...");
                   CopyFile (path_join E d m) (path_join E (EXE_DIR_PATH E) m)]
                  = trace st ++ copy_events E before d m)
      by (unfold copy_events, copying_line; now rewrite app_assoc).
    cbv zeta. rewrite Htr.
    destruct (copyFileSync E (fs st) (path_join E d m)
                (path_join E (EXE_DIR_PATH E) m)) as [fs'|] eqn:Hcopy.
    + now apply (handled_copied st m fp before d after files fs').
    + now apply (handled_copy_failed st m fp before d after files).
Qed.

Lemma no_match_lists_without (E : Env) (fs : FS E) (m dir : string) :
  m <> "" -> no_match E fs m dir -> lists_without E fs m dir.
Proof.
  intros Hne (files & Hfiles & Hres). exists files. split; [assumption|].
  intros Hin. rewrite (resolved_find_Some m files Hne Hin) in Hres. discriminate.
Qed.

Lemma lists_without_no_match (E : Env) (fs : FS E) (m dir : string) :
  lists_without E fs m dir -> no_match E fs m dir.
Proof.
  intros (files & Hfiles & Hnot). exists files. split; [assumption|].
  now apply resolved_find_None.
Qed.

(** The loop body, seen from [step]. *)
Lemma step_handled {E : Env} (st : state E) (idx idx' : nat) (m : string)
    (fp : FilePath) :
  iter st = Some idx ->
  JsMap.next (queue st) idx = Some (idx', (m, fp)) ->
  handled (mkState (queue st) (Some idx') (fs st) (trace st) (passes st)) m fp
          (step st).
Proof.
  intros Hiter Hnext. unfold step. rewrite Hiter, Hnext. apply process_handled.
Qed.

Lemma expand_trace {E : Env} (st : state E) (p : string) :
  trace (state_of (expand st p)) = trace st ++ [Exec p].
Proof. unfold expand. now destruct (scan E (fs st) p). Qed.

Lemma expand_fs {E : Env} (st : state E) (p : string) :
  fs (state_of (expand st p)) = fs st.
Proof. unfold expand. now destruct (scan E (fs st) p). Qed.

Lemma expand_threw {E : Env} (st st' : state E) (p : string) (e : error) :
  expand st p = Threw e st' ->
  e = ExecError p /\ scan E (fs st) p = None /\
  st' = mkState (queue st) (iter st) (fs st) (trace st ++ [Exec p]) (passes st).
Proof.
  unfold expand. destruct (scan E (fs st) p); intros H; inversion H; auto.
Qed.

(** Every step adds to the trace, and what it does to the other variables
    is determined by the case it is in. *)
Lemma step_trace_cases {E : Env} (st : state E) :
  (exists idx idx' m fp,
     iter st = Some idx /\ JsMap.next (queue st) idx = Some (idx', (m, fp)) /\
     handled (mkState (queue st) (Some idx') (fs st) (trace st) (passes st)) m fp
             (step st)) \/
  (fs (state_of (step st)) = fs st /\ queue (state_of (step st)) = queue st /\
   (trace (state_of (step st)) = trace st \/
    trace (state_of (step st)) = trace st ++ [ConsoleLog (cost_line E)]) /\
   forall e st', step st <> Threw e st').
Proof.
  destruct (iter st) as [idx|] eqn:Hiter.
  - destruct (JsMap.next (queue st) idx) as [[idx' [m fp]]|] eqn:Hnext.
    + left. exists idx, idx', m, fp.
      split; [reflexivity|]. split; [assumption|].
      exact (step_handled st idx idx' m fp Hiter Hnext).
    + right. unfold step. rewrite Hiter, Hnext. simpl.
      repeat split; auto. discriminate.
  - right. unfold step. rewrite Hiter.
    destruct (Nat.eqb (JsMap.size (queue st)) 0); simpl;
      repeat split; auto; discriminate.
Qed.

(** ** The file system and the copies *)

Lemma replay_app (E : Env) (fs : FS E) (a b : list event) :
  replay_copies E fs (a ++ b) = replay_copies E (replay_copies E fs a) b.
Proof.
  revert fs. induction a as [|ev a IH]; intros fs; simpl; auto.
  destruct ev; auto.
  destruct (copyFileSync E fs src dest); auto.
Qed.

Lemma replay_no_copy (E : Env) (fs : FS E) (evs : list event) :
  Forall (fun ev => is_copy ev = false) evs -> replay_copies E fs evs = fs.
Proof.
  induction 1 as [|ev evs Hev _ IH]; simpl; auto.
  destruct ev; auto. discriminate Hev.
Qed.

Lemma readdirs_no_copy (dirs : list string) :
  Forall (fun ev => is_copy ev = false) (map Readdir dirs).
Proof. induction dirs; simpl; constructor; auto. Qed.

Lemma replay_copy_events (E : Env) (fs : FS E) (before : list string) (d m : string) :
  replay_copies E fs (copy_events E before d m) =
  match copyFileSync E fs (path_join E d m) (path_join E (EXE_DIR_PATH E) m) with
  | Some fs' => fs'
  | None => fs
  end.
Proof.
  unfold copy_events.
  rewrite replay_app, (replay_no_copy E fs _ (readdirs_no_copy _)). simpl.
  now destruct (copyFileSync E fs (path_join E d m) (path_join E (EXE_DIR_PATH E) m)).
Qed.

Lemma step_replay {E : Env} (st : state E) :
  replay_copies E (fs_init E) (trace st) = fs st ->
  replay_copies E (fs_init E) (trace (state_of (step st))) = fs (state_of (step st)).
Proof.
  intros Hinv.
  destruct (step_trace_cases st)
    as [(idx & idx' & m & fp & _ & _ & Hh)|(Hfs & _ & [Ht|Ht] & _)].
  - destruct Hh as [p _| _ _|before d after _ _ _ _
                    |before d after files _ _ _ _ _ _ Hcopy
                    |before d after files fs' _ _ _ _ _ _ Hcopy];
      rewrite ?expand_trace, ?expand_fs;
      cbn [state_of queue iter fs trace passes] in *;
      rewrite ?replay_app, Hinv, ?replay_copy_events, ?Hcopy;
      try reflexivity;
      apply replay_no_copy, readdirs_no_copy.
  - now rewrite Ht, Hfs.
  - rewrite Ht, Hfs, replay_app, Hinv. reflexivity.
Qed.

(** X4. At every moment of every run, the file system is the initial one
    changed by the copies that the trace records, made in their order, and
    by nothing else: the script writes only through [fs.copyFileSync]. *)
Theorem file_system_is_replay_of_copies (E : Env) (fuel : nat) :
  replay_copies E (fs_init E) (trace (state_of (run E fuel)))
  = fs (state_of (run E fuel)).
Proof.
  apply (run_invariant
           (fun o => replay_copies E (fs_init E) (trace (state_of o))
                     = fs (state_of o))).
  - unfold start. now destruct (scan E (fs_init E) (EXE_PATH E)).
  - intros st H. now apply step_replay.
Qed.

(** ** Directories read and copies announced *)

Lemma split_app_cons {A : Type} (l evs pre post : list A) (x : A) :
  l ++ evs = pre ++ x :: post ->
  (exists post', l = pre ++ x :: post' /\ post = post' ++ evs) \/
  (exists pre', pre = l ++ pre' /\ evs = pre' ++ x :: post).
Proof.
  revert pre. induction l as [|a l IH]; intros pre H.
  - right. exists pre. auto.
  - destruct pre as [|b pre]; simpl in H; inversion H; subst.
    + left. exists l. auto.
    + destruct (IH pre H2) as [(post' & -> & ->)|(pre' & -> & ->)].
      * left. exists post'. auto.
      * right. exists pre'. auto.
Qed.

Lemma announced_app_no_copy (E : Env) (tr evs : list event) :
  copies_announced E tr ->
  Forall (fun ev => is_copy ev = false) evs ->
  copies_announced E (tr ++ evs).
Proof.
  intros Htr Hevs pre src dest post Heq.
  destruct (split_app_cons _ _ _ _ _ Heq) as [(post' & H & _)|(pre' & _ & H)].
  - exact (Htr pre src dest post' H).
  - rewrite H in Hevs. apply Forall_app in Hevs. destruct Hevs as [_ Hc].
    inversion Hc as [|? ? Hx _]. discriminate Hx.
Qed.

Lemma announced_app_copy (E : Env) (tr : list event) (before : list string)
    (d m : string) :
  In d (SEARCH_DIRS E) ->
  copies_announced E tr ->
  copies_announced E (tr ++ copy_events E before d m).
Proof.
  intros Hd Htr.
  assert (Heq : tr ++ copy_events E before d m
                = (tr ++ map Readdir before) ++
                  [Readdir d; ConsoleLog (copying_line m);
                   CopyFile (path_join E d m) (path_join E (EXE_DIR_PATH E) m)]).
  { unfold copy_events. rewrite map_app. simpl. now rewrite <- !app_assoc. }
  rewrite Heq. clear Heq.
  assert (Htr1 : copies_announced E (tr ++ map Readdir before))
    by (apply announced_app_no_copy; auto using readdirs_no_copy).
  intros pre src dest post H.
  destruct (split_app_cons _ _ _ _ _ H) as [(post' & H' & _)|(pre' & -> & H')].
  - exact (Htr1 pre src dest post' H').
  - destruct pre' as [|x [|y [|z pre']]]; simpl in H'; inversion H'; subst.
    + exists (tr ++ map Readdir before), d, m. auto.
    + destruct pre'; discriminate.
Qed.

Lemma reads_configured_prefix (E : Env) (before after : list string) (d : string) :
  SEARCH_DIRS E = before ++ d :: after ->
  reads_configured E (map Readdir (before ++ [d])).
Proof.
  intros Hdirs. unfold reads_configured.
  apply Forall_forall. intros ev Hev.
  apply in_map_iff in Hev. destruct Hev as (dir & <- & Hin).
  rewrite Hdirs. apply in_app_or in Hin. apply in_or_app.
  destruct Hin as [Hin|[<-|[]]]; [now left | right; now left].
Qed.

Lemma reads_configured_all (E : Env) :
  reads_configured E (map Readdir (SEARCH_DIRS E)).
Proof.
  unfold reads_configured. apply Forall_forall. intros ev Hev.
  apply in_map_iff in Hev. now destruct Hev as (dir & <- & Hin).
Qed.

Lemma reads_configured_copy (E : Env) (before after : list string) (d m : string) :
  SEARCH_DIRS E = before ++ d :: after ->
  reads_configured E (copy_events E before d m).
Proof.
  intros Hdirs. unfold copy_events. apply Forall_app.
  split; [now apply (reads_configured_prefix E before after)|].
  repeat constructor.
Qed.

Lemma search_dir_configured (E : Env) (before after : list string) (d : string) :
  SEARCH_DIRS E = before ++ d :: after -> In d (SEARCH_DIRS E).
Proof. intros ->. apply in_elt. Qed.

Lemma reads_configured_app (E : Env) (a b : list event) :
  reads_configured E a -> reads_configured E b -> reads_configured E (a ++ b).
Proof. intros Ha Hb. apply Forall_app. now split. Qed.

Lemma step_reads_and_copies {E : Env} (st : state E) :
  reads_configured E (trace st) /\ copies_announced E (trace st) ->
  reads_configured E (trace (state_of (step st))) /\
  copies_announced E (trace (state_of (step st))).
Proof.
  intros [Hr Hc].
  assert (Hexec : forall p, reads_configured E [Exec p])
    by (intros p; repeat constructor).
  assert (Hexec' : forall p, Forall (fun ev => is_copy ev = false) [Exec p])
    by (intros p; repeat constructor).
  destruct (step_trace_cases st)
    as [(idx & idx' & m & fp & _ & _ & Hh)|(_ & _ & [Ht|Ht] & _)].
  - destruct Hh as [p _| _ _|before d after _ Hdirs _ _
                    |before d after files _ Hdirs _ _ _ _ _
                    |before d after files fs' _ Hdirs _ _ _ _ _];
      rewrite ?expand_trace; cbn [state_of queue iter fs trace passes];
      try pose proof (search_dir_configured E before after d Hdirs) as Hd.
    + split; [apply reads_configured_app; auto
             | apply announced_app_no_copy; auto].
    + split; [apply reads_configured_app; auto using reads_configured_all
             | apply announced_app_no_copy; auto using readdirs_no_copy].
    + split; [apply reads_configured_app; eauto using reads_configured_prefix
             | apply announced_app_no_copy; auto using readdirs_no_copy].
    + split; [apply reads_configured_app; eauto using reads_configured_copy
             | apply announced_app_copy; auto].
    + split.
      * apply reads_configured_app; [|apply Hexec].
        apply reads_configured_app; [assumption|].
        now apply (reads_configured_copy E before after).
      * apply announced_app_no_copy; [|apply Hexec'].
        now apply announced_app_copy.
  - rewrite Ht. auto.
  - rewrite Ht. split.
    + apply reads_configured_app; [assumption | repeat constructor].
    + apply announced_app_no_copy; [assumption | repeat constructor].
Qed.

(** X5. At every moment of every run, the directories that have been
    listed are configured search directories, and every copy made is the
    copy of a file from the search directory listed just before into the
    directory of the executable under the same name, announced on the
    console right before it is made. *)
Theorem copies_come_from_search_directories (E : Env) (fuel : nat) :
  reads_configured E (trace (state_of (run E fuel))) /\
  copies_announced E (trace (state_of (run E fuel))).
Proof.
  apply (run_invariant
           (fun o => reads_configured E (trace (state_of o)) /\
                     copies_announced E (trace (state_of o)))).
  - assert (H : reads_configured E [Exec (EXE_PATH E)] /\
                copies_announced E [Exec (EXE_PATH E)]).
    { split; [repeat constructor|].
      intros pre src dest post Heq.
      destruct pre as [|x [|y pre]]; discriminate Heq. }
    unfold start. now destruct (scan E (fs_init E) (EXE_PATH E)).
  - intros st H. now apply step_reads_and_copies.
Qed.

(** ** The files that are scanned *)

Lemma populate_path_resolved (E : Env) (m : string) (fp : FilePath) (p : string) :
  resolved fp = Some p -> populate_path E (m, fp) = p.
Proof. intros H. unfold populate_path. simpl. now rewrite H. Qed.

Lemma populate_path_copied (E : Env) (m : string) (fp : FilePath) :
  resolved fp = None -> populate_path E (m, fp) = path_join E (EXE_DIR_PATH E) m.
Proof. intros H. unfold populate_path. simpl. now rewrite H. Qed.

Lemma scans_known_app (E : Env) (a b : list event) :
  scans_known E a -> scans_known E b -> scans_known E (a ++ b).
Proof. intros Ha Hb. apply Forall_app. now split. Qed.

Lemma scans_known_no_exec (E : Env) (evs : list event) :
  Forall (fun ev => is_exec ev = false) evs -> scans_known E evs.
Proof.
  apply Forall_impl. intros [] H; simpl; auto. discriminate H.
Qed.

Lemma copy_events_no_exec (E : Env) (before : list string) (d m : string) :
  Forall (fun ev => is_exec ev = false) (copy_events E before d m).
Proof.
  unfold copy_events. apply Forall_app. split; [|repeat constructor].
  apply Forall_forall. intros ev Hev.
  apply in_map_iff in Hev. now destruct Hev as (dir & <- & _).
Qed.

Lemma readdirs_no_exec (dirs : list string) :
  Forall (fun ev => is_exec ev = false) (map Readdir dirs).
Proof. induction dirs; simpl; constructor; auto. Qed.

Lemma step_scans_known {E : Env} (st : state E) :
  Forall (in_closure E) (JsMap.entries (queue st)) ->
  scans_known E (trace st) ->
  scans_known E (trace (state_of (step st))).
Proof.
  intros Hc Ht.
  destruct (step_trace_cases st)
    as [(idx & idx' & m & fp & _ & Hnext & Hh)|(_ & _ & [Htr|Htr] & _)].
  - destruct (next_entry _ _ _ _ Hnext) as [Hin _].
    assert (Hm : in_closure E (m, fp)) by (rewrite Forall_forall in Hc; auto).
    assert (Hexec : scans_known E [Exec (populate_path E (m, fp))]).
    { constructor; [|constructor]. right. now exists (m, fp). }
    destruct Hh as [p Hres|Hres _|before d after Hres _ _ _
                    |before d after files Hres _ _ _ _ _ _
                    |before d after files fs' Hres _ _ _ _ _ _];
      rewrite ?expand_trace; cbn [state_of queue iter fs trace passes].
    + rewrite <- (populate_path_resolved E m fp p Hres).
      now apply scans_known_app.
    + apply scans_known_app; auto using scans_known_no_exec, readdirs_no_exec.
    + apply scans_known_app; auto using scans_known_no_exec, readdirs_no_exec.
    + apply scans_known_app; auto using scans_known_no_exec, copy_events_no_exec.
    + rewrite <- (populate_path_copied E m fp Hres).
      apply scans_known_app; [|assumption].
      apply scans_known_app; auto using scans_known_no_exec, copy_events_no_exec.
  - now rewrite Htr.
  - rewrite Htr. apply scans_known_app; [assumption|].
    apply scans_known_no_exec. repeat constructor.
Qed.

(** X6. At every moment of every run, Dependencies has been run on the
    executable and otherwise only on the files of entries of the closure:
    for an entry with a truthy path on that path, for another entry on the
    destination of its copy in the directory of the executable. *)
Theorem only_known_files_are_scanned (E : Env) (fuel : nat) :
  scans_known E (trace (state_of (run E fuel))).
Proof.
  assert (H : Forall (in_closure E) (JsMap.entries (queue (state_of (run E fuel)))) /\
              scans_known E (trace (state_of (run E fuel)))); [|apply H].
  apply (run_invariant
           (fun o => Forall (in_closure E) (JsMap.entries (queue (state_of o))) /\
                     scans_known E (trace (state_of o)))).
  - split; [apply start_in_closure|].
    unfold start.
    destruct (scan E (fs_init E) (EXE_PATH E)); simpl;
      (constructor; [now left | constructor]).
  - intros st [Hc Ht]. split; [now apply step_in_closure | now apply step_scans_known].
Qed.

(** ** When nothing is missing *)

Lemma entries_set_in (k : string) (v : FilePath) (m : JsMap.t)
    (e : string * FilePath) :
  In e (JsMap.entries (JsMap.set k v m)) -> e = (k, v) \/ In e (JsMap.entries m).
Proof.
  induction m as [|[[k' v']|] m IH]; simpl.
  - intros [<-|[]]. now left.
  - destruct (String.eqb_spec k' k) as [->|Hne]; simpl.
    + intros [<-|H]; auto.
    + intros [<-|H]; auto. destruct (IH H); auto.
  - exact IH.
Qed.

Lemma scan_fold_entries (deps : list Dep) (acc : JsMap.t) (e : string * FilePath) :
  In e (JsMap.entries (fold_left scan_dep deps acc)) ->
  In e (JsMap.entries acc) \/
  exists d, In d deps /\ INCLUDE_PATTERN_test (ModuleName d) = true /\
            e = (ModuleName d, Filepath d).
Proof.
  revert acc. induction deps as [|d deps IH]; intros acc H; simpl in *; auto.
  destruct (IH _ H) as [Hacc|(d' & Hd' & Hinc & He)].
  - unfold scan_dep in Hacc.
    destruct (INCLUDE_PATTERN_test (ModuleName d)) eqn:Hinc; auto.
    destruct (entries_set_in _ _ _ _ Hacc) as [->|Hin]; auto.
    right. exists d. auto.
  - right. exists d'. auto.
Qed.

Lemma scan_entries_reported (E : Env) (fs : FS E) (p : string) (children : JsMap.t)
    (e : string * FilePath) :
  scan E fs p = Some children ->
  In e (JsMap.entries children) ->
  exists deps d,
    dependencies E fs p = Some deps /\ In d deps /\
    INCLUDE_PATTERN_test (ModuleName d) = true /\
    e = (ModuleName d, Filepath d).
Proof.
  intros Hscan Hin. apply scan_Some in Hscan. destruct Hscan as (deps & Hdeps & ->).
  destruct (scan_fold_entries deps JsMap.empty e Hin) as [[]|(d & Hd & Hinc & He)].
  exists deps, d. auto.
Qed.

Lemma step_untouched {E : Env} (st : state E) :
  all_resolved E -> untouched (Running st) -> untouched (step st).
Proof.
  intros Hall (Hq & Hfs & Ht & _). simpl in Hq, Hfs, Ht.
  destruct (step_trace_cases st)
    as [(idx & idx' & m & fp & _ & Hnext & Hh)|(Hfs' & Hq' & Htr & Hno)].
  - destruct (next_entry _ _ _ _ Hnext) as [Hin _].
    assert (Htruthy : truthy fp = true)
      by (rewrite Forall_forall in Hq; exact (Hq (m, fp) Hin)).
    assert (Hdel : Forall (fun e => truthy (snd e) = true)
                          (JsMap.entries (JsMap.delete m (queue st))))
      by (eapply Forall_incl; [apply entries_delete_incl | exact Hq]).
    destruct Hh as [p Hres|Hres _|before d after Hres _ _ _
                    |before d after files Hres _ _ _ _ _ _
                    |before d after files fs' Hres _ _ _ _ _ _];
      try (apply resolved_None in Hres; congruence).
    unfold expand; cbn [queue iter fs trace passes].
    destruct (scan E (fs st) p) as [children|] eqn:Hscan; unfold untouched;
      cbn [state_of queue iter fs trace passes].
    + destruct (enqueue_children_spec (JsMap.delete m (queue st)) children)
        as (added & -> & Hincl & _).
      rewrite JsMapFacts.entries_app, JsMapFacts.entries_map_Some.
      repeat split; auto.
      * apply Forall_app. split; [assumption|].
        apply Forall_forall. intros c Hc.
        destruct (scan_entries_reported E (fs st) p children c Hscan (Hincl c Hc))
          as (deps & dep & Hdeps & Hdep & Hinc & ->).
        exact (Hall (fs st) p deps dep Hdeps Hdep Hinc).
      * apply Forall_app. split; [assumption | repeat constructor].
    + repeat split; auto.
      apply Forall_app. split; [assumption | repeat constructor].
  - unfold untouched. rewrite Hfs', Hq'. repeat split; auto.
    + destruct Htr as [->| ->]; auto.
      apply Forall_app. split; [assumption | repeat constructor].
    + destruct (step st) as [| |e st']; auto. exfalso. now apply (Hno e st').
Qed.

Lemma scan_untouched (E : Env) :
  all_resolved E -> untouched (start E).
Proof.
  intros Hall. unfold start, untouched.
  destruct (scan E (fs_init E) (EXE_PATH E)) as [q|] eqn:Hscan;
    cbn [state_of queue iter fs trace passes].
  - repeat split; auto; [|repeat constructor].
    apply Forall_forall. intros c Hc.
    destruct (scan_entries_reported E _ _ q c Hscan Hc)
      as (deps & dep & Hdeps & Hdep & Hinc & ->).
    exact (Hall _ _ deps dep Hdeps Hdep Hinc).
  - repeat split; auto; repeat constructor.
Qed.

(** X7. When Dependencies resolves every module that passes the filter,
    the script changes nothing: at every moment of every run the file system
    is the initial one, the only events are scans and, at the end, the line
    with the elapsed time (no directory is listed, no file is copied, no
    copy is announced), every entry of the worklist has a truthy path, and
    the only error the script can end with is a failure of Dependencies. *)
Theorem nothing_missing_nothing_touched (E : Env) (fuel : nat) :
  all_resolved E -> untouched (run E fuel).
Proof.
  intros Hall. apply run_invariant.
  - now apply scan_untouched.
  - intros st H. now apply step_untouched.
Qed.

Lemma diamond_all_resolved : all_resolved diamond_env.
Proof.
  intros fs p deps d Hdeps Hin Hinc.
  cbn [dependencies diamond_env table_env lookup] in Hdeps.
  repeat match type of Hdeps with
         | context [String.eqb ?a ?b] => destruct (String.eqb a b)
         end;
    inversion Hdeps; subst; simpl in Hin;
    repeat (destruct Hin as [Hin|Hin]); try contradiction; subst; reflexivity.
Qed.

Lemma nothing_missing_nothing_touched_witness : untouched (run diamond_env 6).
Proof.
  exact (nothing_missing_nothing_touched diamond_env 6 diamond_all_resolved).
Defined.

(** ** The worklist as a queue *)






(** ** Errors and their causes *)

Lemma run_from_threw {E : Env} (fuel : nat) (st0 st : state E) (e : error) :
  run_from fuel st0 = Threw e st ->
  exists k st1, run_from k st0 = Running st1 /\ step st1 = Threw e st.
Proof.
  revert st0. induction fuel as [|fuel IH]; intros st0 H; [discriminate H|].
  cbn [run_from] in H.
  destruct (step st0) as [st1| |] eqn:Hstep; try discriminate.
  - destruct (IH st1 H) as (k & st2 & Hk & Hs).
    exists (S k), st2. cbn [run_from]. now rewrite Hstep.
  - exists 0, st0. split; [reflexivity|]. now rewrite Hstep.
Qed.

Lemma run_threw (E : Env) (fuel : nat) (st : state E) (e : error) :
  run E fuel = Threw e st ->
  start E = Threw e st \/
  exists k st1, run E k = Running st1 /\ step st1 = Threw e st.
Proof.
  unfold run. destruct (start E) as [st0| |] eqn:Hstart; intros H; auto.
  right. apply run_from_threw in H. exact H.
Qed.

Lemma scan_None (E : Env) (fs : FS E) (p : string) :
  scan E fs p = None -> dependencies E fs p = None.
Proof.
  unfold scan. now destruct (dependencies E fs p).
Qed.

(** X9. The script does not throw without cause.  When a run has ended
    with an error: a failure of Dependencies means that Dependencies fails
    on that file in the file system as it is then, and the scan was the last
    thing done; "Can not find" names a module that is still in the worklist
    with a falsy path and that no search directory lists; a file system
    error names a search directory that cannot be listed, or the source of
    a copy from a search directory that cannot be made. *)
Theorem errors_have_causes (E : Env) (fuel : nat) (e : error) (st : state E) :
  run E fuel = Threw e st -> genuine e st.
Proof.
  intros Hrun.
  destruct (run_threw E fuel st e Hrun) as [Hstart|(k & st1 & Hk & Hstep)].
  - unfold start in Hstart.
    destruct (scan E (fs_init E) (EXE_PATH E)) eqn:Hscan; inversion Hstart; subst.
    simpl. split; [now apply scan_None | now exists []].
  - destruct (step_trace_cases st1)
      as [(idx & idx' & m & fp & _ & Hnext & Hh)|(_ & _ & _ & Hno)];
      [|exfalso; exact (Hno e st Hstep)].
    destruct (next_entry _ _ _ _ Hnext) as [Hin Hhas]. simpl in Hhas.
    assert (Hne : m <> "").
    { apply included_nonempty.
      destruct (run_filtered E k) as [[Hkeys _] _]. rewrite Hk in Hkeys.
      apply JsMapFacts.has_true_iff in Hhas.
      rewrite Forall_forall in Hkeys. auto. }
    rewrite Hstep in Hh.
    inversion Hh as [p Hres Hex| Hres Hall Heq|before d after Hres Hdirs Hall Hnone Heq
                     |before d after files Hres Hdirs Hall Hsome Hinm _ Hcopy Heq
                     |before d after files fs' Hres Hdirs Hall Hsome Hinm _ Hcopy Hex];
      cbn [queue iter fs trace passes] in *.
    + apply expand_threw in Hex.
      destruct Hex as (-> & Hscan & ->). simpl in *.
      split; [now apply scan_None | eauto].
    + subst. simpl. exists m, fp.
      split; [reflexivity|]. split; [assumption|].
      split; [now apply resolved_None|].
      eapply Forall_impl; [|exact Hall].
      intros dir. now apply no_match_lists_without.
    + subst. simpl. left. split; [|assumption].
      rewrite Hdirs. apply in_elt.
    + subst. simpl. right. exists d, m.
      split; [rewrite Hdirs; apply in_elt | auto].
    + apply expand_threw in Hex.
      destruct Hex as (-> & Hscan & ->). simpl in *.
      split; [now apply scan_None | eauto].
Qed.

Lemma errors_have_causes_witness :
  genuine (JsError "Can not find vtkC.dll") (state_of (run missing_env 3)).
Proof.
  assert (Hrun : run missing_env 3
                 = Threw (JsError "Can not find vtkC.dll")
                         (state_of (run missing_env 3)))
    by (vm_compute; reflexivity).
  exact (errors_have_causes missing_env 3 _ _ Hrun).
Defined.

(** ** What is left behind by a failure *)

Lemma search_unlisted (E : Env) (fs : FS E) (before after : list string)
    (d m : string) :
  Forall (lists_without E fs m) before ->
  readdirSync E fs d = None ->
  search E fs (before ++ d :: after) m = (map Readdir (before ++ [d]), ReaddirThrew d).
Proof.
  intros Hbefore Hnone.
  induction Hbefore as [|d' before (files' & Hfiles' & Hnot) _ IH]; simpl.
  - now rewrite Hnone.
  - now rewrite Hfiles', resolved_find_None, IH.
Qed.

(** X10. A search directory that cannot be listed ends the run.  When the
    iterator yields an entry with a falsy path, the search directories
    before [d] are listed without the file and [d] cannot be listed, the
    script ends at once with the file system error of [d]: the directories
    after [d] are not read, whether or not they hold the file, nothing is
    copied or printed, and the worklist and the file system are what they
    were. *)
Theorem unlisted_directory_halts (E : Env) (st : state E)
    (idx idx' : nat) (m : string) (fp : FilePath)
    (before after : list string) (d : string) (fuel : nat) :
  iter st = Some idx ->
  JsMap.next (queue st) idx = Some (idx', (m, fp)) ->
  truthy fp = false ->
  SEARCH_DIRS E = before ++ d :: after ->
  Forall (lists_without E (fs st) m) before ->
  readdirSync E (fs st) d = None ->
  run_from (S fuel) st =
  Threw (FsError d)
        (mkState (queue st) (Some idx') (fs st)
                 (trace st ++ map Readdir (before ++ [d])) (passes st)).
Proof.
  intros Hiter Hnext Ht Hdirs Hbefore Hnone.
  cbn [run_from]. unfold step. rewrite Hiter, Hnext.
  unfold process, resolved. rewrite Ht.
  cbn [queue iter fs trace passes].
  rewrite Hdirs, (search_unlisted E (fs st) before after d m Hbefore Hnone).
  reflexivity.
Qed.

Lemma unlisted_directory_halts_witness :
  run_from 4 (state_of (run unlisted_env 1)) =
  Threw (FsError "D:/sdk/gone")
        (@mkState unlisted_env [Some ("vtkB.dll", None)] (Some 1) []
                  [Exec "./QtVtk1.exe"; Readdir "D:/sdk/gone"] 1).
Proof.
  exact (unlisted_directory_halts unlisted_env (state_of (run unlisted_env 1))
           0 1 "vtkB.dll" None [] ["D:/sdk/two"] "D:/sdk/gone" 3
           eq_refl eq_refl eq_refl eq_refl (Forall_nil _) eq_refl).
Defined.



(** X12. A copy is kept when the scan of the copied file fails.  In every
    run, when the iterator yields an entry with a falsy path, the file is
    copied from the first search directory [d] that lists it, and
    Dependencies fails on the copy, the script ends at once with that
    failure: the entry has been removed from the worklist and the file
    system is the one the copy has produced. *)
Theorem failed_scan_keeps_copy (E : Env) (n : nat) (st : state E)
    (idx idx' : nat) (m : string) (fp : FilePath)
    (before after : list string) (d : string) (files : list string)
    (fs' : FS E) (fuel : nat) :
  run E n = Running st ->
  iter st = Some idx ->
  JsMap.next (queue st) idx = Some (idx', (m, fp)) ->
  truthy fp = false ->
  SEARCH_DIRS E = before ++ d :: after ->
  Forall (lists_without E (fs st) m) before ->
  readdirSync E (fs st) d = Some files ->
  In m files ->
  copyFileSync E (fs st) (path_join E d m) (path_join E (EXE_DIR_PATH E) m)
  = Some fs' ->
  dependencies E fs' (path_join E (EXE_DIR_PATH E) m) = None ->
  run_from (S fuel) st =
  Threw (ExecError (path_join E (EXE_DIR_PATH E) m))
        (mkState (JsMap.delete m (queue st)) (Some idx') fs'
                 (trace st ++ copy_events E before d m
                  ++ [Exec (path_join E (EXE_DIR_PATH E) m)])
                 (passes st)).
Proof.
  intros Hrun Hiter Hnext Ht Hdirs Hbefore Hfiles Hin Hcopy Hdeps.
  assert (Hne : m <> "").
  { apply included_nonempty.
    destruct (run_filtered E n) as [[Hk _] _]. rewrite Hrun in Hk. simpl in Hk.
    destruct (next_entry _ _ _ _ Hnext) as [_ Hhas]. simpl in Hhas.
    apply JsMapFacts.has_true_iff in Hhas.
    rewrite Forall_forall in Hk. auto. }
  cbn [run_from]. unfold step. rewrite Hiter, Hnext.
  unfold process, resolved. rewrite Ht.
  cbn [queue iter fs trace passes].
  rewrite Hdirs, (search_first E (fs st) before after d m files Hne Hbefore Hfiles Hin).
  rewrite Hcopy. unfold expand, scan; cbn [queue iter fs trace passes].
  rewrite Hdeps. unfold copy_events, copying_line. now rewrite <- !app_assoc.
Qed.

Lemma failed_scan_keeps_copy_witness :
  run_from 3 (state_of (run unscannable_env 1)) =
  Threw (ExecError "vtkB.dll")
        (@mkState unscannable_env
                  [None; Some ("vtkA.dll", Some "C:/vtk/vtkA.dll")] (Some 1)
                  [("D:/sdk/two/vtkB.dll", "vtkB.dll")]
                  [Exec "./QtVtk1.exe";
                   Readdir "D:/sdk/one"; Readdir "D:/sdk/two";
                   ConsoleLog "Copying vtkB.dll...";
                   CopyFile "D:/sdk/two/vtkB.dll" "vtkB.dll";
                   Exec "vtkB.dll"]
                  1).
Proof.
  refine (failed_scan_keeps_copy unscannable_env 1 (state_of (run unscannable_env 1))
            0 1 "vtkB.dll" None ["D:/sdk/one"] [] "D:/sdk/two" ["vtkB.dll"]
            [("D:/sdk/two/vtkB.dll", "vtkB.dll")] 2
            eq_refl eq_refl eq_refl eq_refl eq_refl _ eq_refl _ eq_refl eq_refl).
  - repeat constructor. exists []. split; [reflexivity | intros []].
  - simpl. auto.
Defined.

(** ** The console *)

Lemma logs_only_copies_app (a b : list event) :
  logs_only_copies a -> logs_only_copies b -> logs_only_copies (a ++ b).
Proof. intros Ha Hb. apply Forall_app. now split. Qed.

Lemma logs_only_copies_readdirs (dirs : list string) :
  logs_only_copies (map Readdir dirs).
Proof.
  apply Forall_forall. intros ev Hev.
  apply in_map_iff in Hev. now destruct Hev as (dir & <- & _).
Qed.

Lemma logs_only_copies_copy (E : Env) (before : list string) (d m : string) :
  logs_only_copies (copy_events E before d m).
Proof.
  unfold copy_events. apply logs_only_copies_app.
  - apply logs_only_copies_readdirs.
  - constructor; [now exists m | repeat constructor].
Qed.

Lemma logs_only_copies_exec (p : string) : logs_only_copies [Exec p].
Proof. repeat constructor. Qed.

Lemma expand_console {E : Env} (st : state E) (p : string) :
  logs_only_copies (trace st) -> console_shape (expand st p).
Proof.
  intros H. unfold expand.
  destruct (scan E (fs st) p); simpl;
    apply logs_only_copies_app; auto using logs_only_copies_exec.
Qed.

Lemma step_console {E : Env} (st : state E) :
  logs_only_copies (trace st) -> console_shape (step st).
Proof.
  intros Ht.
  destruct (iter st) as [idx|] eqn:Hiter.
  - destruct (JsMap.next (queue st) idx) as [[idx' [m fp]]|] eqn:Hnext.
    + destruct (step_handled st idx idx' m fp Hiter Hnext)
        as [p _| _ _|before d after _ _ _ _
            |before d after files _ _ _ _ _ _ _
            |before d after files fs' _ _ _ _ _ _ _];
        try apply expand_console;
        cbn [console_shape queue iter fs trace passes];
        try assumption;
        (apply logs_only_copies_app; [assumption|]);
        auto using logs_only_copies_readdirs, logs_only_copies_copy.
    + unfold step. rewrite Hiter, Hnext. exact Ht.
  - unfold step. rewrite Hiter.
    destruct (Nat.eqb (JsMap.size (queue st)) 0); simpl; eauto.
Qed.

(** X14. The console shows what was done.  At every moment of every run
    the lines printed so far are announcements of copies; the line with the
    elapsed time is printed only when the script finishes, as its last
    action, and is not printed when the script ends with an error. *)
Theorem elapsed_time_only_on_success (E : Env) (fuel : nat) :
  console_shape (run E fuel).
Proof.
  apply run_invariant.
  - unfold start.
    destruct (scan E (fs_init E) (EXE_PATH E)); simpl; repeat constructor.
  - intros st H. now apply step_console.
Qed.
